(** * Memory disambiguation model: LSQ, store-set predictor, atomics, pipeline

    A shallow embedding of the Python sources [lsq.py], [predictor.py],
    [synchronization.py] and [pipeline.py].  Every Python method is a
    computation in a state-and-failure monad over the object it mutates;
    Python integers are [Z], dictionaries are [gmap], Python lists are
    [list] indexed the Python way (negative indices count from the end,
    anything else out of range raises [IndexError]). *)

From stdpp Require Import gmap strings list fin_maps.
Open Scope Z_scope.

(** ** Failures and the method monad *)

(** The ways a call can fail to return.  The first three are the Python
    exceptions the modelled code can raise; [NonTermination] stands for a
    [while] loop that never exits; [Dangling] and [IllTyped] do not exist in
    Python (a reference always points to an object, and a dictionary accepts
    [None]): they mark states outside the typed model. *)
Inductive failure :=
  | IndexError | TypeError | ZeroDivisionError
  | NonTermination | Dangling | IllTyped.

Inductive Res (S A : Type) :=
  | Ret (a : A) (s : S)
  | Fail (f : failure).
Arguments Ret {S A} a s.
Arguments Fail {S A} f.

Definition M (S A : Type) : Type := S -> Res S A.

Definition ret {S A} (a : A) : M S A := fun s => Ret a s.
Definition bind {S A B} (m : M S A) (k : A -> M S B) : M S B :=
  fun s => match m s with Ret a s' => k a s' | Fail f => Fail f end.

Notation "x <- m ;; k" := (bind m (fun x => k))
  (at level 20, m at level 99, k at level 200, only parsing).
Notation "' pat <- m ;; k" := (bind m (fun x => match x with pat => k end))
  (at level 20, pat pattern, m at level 99, k at level 200, only parsing).
Notation "m ;; k" := (bind m (fun _ => k))
  (at level 100, k at level 200, only parsing, right associativity).

Definition get {S} : M S S := fun s => Ret s s.
Definition gets {S A} (f : S -> A) : M S A := fun s => Ret (f s) s.
Definition put {S} (s : S) : M S unit := fun _ => Ret tt s.
Definition modify {S} (f : S -> S) : M S unit := fun s => Ret tt (f s).
Definition raise {S A} (f : failure) : M S A := fun _ => Fail f.

(** Run a method of a sub-object inside the object that owns it. *)
Definition zoom {S T A} (proj : T -> S) (upd : S -> T -> T) (m : M S A) : M T A :=
  fun t => match m (proj t) with
           | Ret a s => Ret a (upd s t)
           | Fail f => Fail f
           end.

Definition when {S} (b : bool) (m : M S unit) : M S unit :=
  if b then m else ret tt.

(** ** Python list indexing and integer arithmetic *)

Definition py_index (len i : Z) : option nat :=
  if bool_decide (0 <= i < len) then Some (Z.to_nat i)
  else if bool_decide (- len <= i < 0) then Some (Z.to_nat (len + i))
  else None.

Definition py_getitem {A} (l : list A) (i : Z) : option A :=
  n ← py_index (Z.of_nat (length l)) i; l !! n.

Definition py_setitem {A} (l : list A) (i : Z) (x : A) : option (list A) :=
  n ← py_index (Z.of_nat (length l)) i; Some (<[n := x]> l).

(** [a % b]: Python's remainder has the sign of the divisor, like [Z.modulo];
    a zero divisor raises. *)
Definition py_mod {S} (a b : Z) : M S Z :=
  if bool_decide (b = 0) then raise ZeroDivisionError else ret (a `mod` b).

(** [a >= b] between values that may still be [None]: comparing with [None]
    raises [TypeError]. *)
Definition py_ge {S} (a b : option Z) : M S bool :=
  match a, b with
  | Some a, Some b => ret (bool_decide (a >= b))
  | _, _ => raise TypeError
  end.

(** ** lsq.py *)

Module MemOpType.
Inductive t := LOAD | STORE | ATOMIC.

#[global] Instance eq_dec : EqDecision t.
Proof. solve_decision. Defined.
End MemOpType.

Module LSQEntry.
Record t := mk {
  seq_num : Z;
  pc : Z;
  op_type : MemOpType.t;
  size : Z;
  address : option Z;
  data : option Z;
  address_valid : bool;
  data_valid : bool;
  speculative : bool;
  completed : bool;
  committed : bool
}.

Definition init (seq_num pc : Z) (op_type : MemOpType.t) (size : Z) : t :=
  mk seq_num pc op_type size None None false false false false false.

Definition with_address (a : Z) (e : t) : t :=
  mk (seq_num e) (pc e) (op_type e) (size e) (Some a) (data e)
     true (data_valid e) (speculative e) (completed e) (committed e).
Definition with_data (d : Z) (e : t) : t :=
  mk (seq_num e) (pc e) (op_type e) (size e) (address e) (Some d)
     (address_valid e) true (speculative e) (completed e) (committed e).
Definition with_speculative (e : t) : t :=
  mk (seq_num e) (pc e) (op_type e) (size e) (address e) (data e)
     (address_valid e) (data_valid e) true (completed e) (committed e).
Definition with_completed (e : t) : t :=
  mk (seq_num e) (pc e) (op_type e) (size e) (address e) (data e)
     (address_valid e) (data_valid e) (speculative e) true (committed e).
Definition with_committed (e : t) : t :=
  mk (seq_num e) (pc e) (op_type e) (size e) (address e) (data e)
     (address_valid e) (data_valid e) (speculative e) (completed e) true.

#[global] Instance eq_dec : EqDecision t.
Proof. solve_decision. Defined.
End LSQEntry.

Module LoadStoreQueue.
Record t := mk {
  capacity : Z;
  entries : list (option LSQEntry.t);
  head : Z;
  tail : Z;
  size : Z
}.

#[global] Instance eq_dec : EqDecision t.
Proof. solve_decision. Defined.

Definition init (capacity : Z) : t :=
  mk capacity (replicate (Z.to_nat capacity) None) 0 0 0.

Definition with_entries (l : list (option LSQEntry.t)) (q : t) : t :=
  mk (capacity q) l (head q) (tail q) (size q).
Definition with_head (h : Z) (q : t) : t :=
  mk (capacity q) (entries q) h (tail q) (size q).
Definition with_tail (tl : Z) (q : t) : t :=
  mk (capacity q) (entries q) (head q) tl (size q).
Definition with_size (n : Z) (q : t) : t :=
  mk (capacity q) (entries q) (head q) (tail q) n.

(** [self.entries[idx]] read and written. *)
Definition getitem (idx : Z) : M t (option LSQEntry.t) :=
  q <- get;;
  match py_getitem (entries q) idx with
  | Some e => ret e
  | None => raise IndexError
  end.

Definition setitem (idx : Z) (e : option LSQEntry.t) : M t unit :=
  q <- get;;
  match py_setitem (entries q) idx e with
  | Some l => modify (with_entries l)
  | None => raise IndexError
  end.

Definition is_full : M t bool :=
  q <- get;; ret (bool_decide (size q >= capacity q)).

Definition is_empty : M t bool :=
  q <- get;; ret (bool_decide (size q = 0)).

Definition allocate (seq_num pc : Z) (op_type : MemOpType.t) (sz : Z)
  : M t (option Z) :=
  full <- is_full;;
  if full then ret None else
  idx <- gets tail;;
  setitem idx (Some (LSQEntry.init seq_num pc op_type sz));;
  tl <- gets tail;;
  cap <- gets capacity;;
  tl' <- py_mod (tl + 1) cap;;
  modify (with_tail tl');;
  modify (fun q => with_size (size q + 1) q);;
  ret (Some idx).

(** The guard [0 <= idx < self.capacity and self.entries[idx]] followed by
    an in-place change of the entry. *)
Definition update_at (idx : Z) (f : LSQEntry.t -> LSQEntry.t) : M t unit :=
  cap <- gets capacity;;
  if bool_decide (0 <= idx < cap) then
    e <- getitem idx;;
    match e with
    | Some e => setitem idx (Some (f e))
    | None => ret tt
    end
  else ret tt.

Definition update_address (idx : Z) (address : Z) : M t unit :=
  update_at idx (LSQEntry.with_address address).

Definition update_data (idx : Z) (data : Z) : M t unit :=
  update_at idx (fun e =>
    if decide (LSQEntry.op_type e = MemOpType.STORE) then LSQEntry.with_data data e else e).

(** [_addresses_overlap]: the sums raise [TypeError] on [None]. *)
Definition _addresses_overlap (addr1 : option Z) (size1 : Z)
    (addr2 : option Z) (size2 : Z) : M t bool :=
  match addr1, addr2 with
  | Some a1, Some a2 =>
      let end1 := a1 + size1 in
      let end2 := a2 + size2 in
      ret (negb (bool_decide (end1 <= a2) || bool_decide (end2 <= a1)))
  | _, _ => raise TypeError
  end.

(** The three locals of the scan:
    [latest_conflict_idx], [can_forward], [forward_data]. *)
Definition scan_state : Type := option Z * bool * option Z.

(** One iteration of the body of the [while idx != load_idx] loop, up to
    the increment of [idx]. *)
Definition scan_body (load_addr : option Z) (load_size : Z) (idx : Z)
    (acc : scan_state) : M t scan_state :=
  entry <- getitem idx;;
  match entry with
  | Some e =>
      if bool_decide (LSQEntry.op_type e = MemOpType.STORE \/ LSQEntry.op_type e = MemOpType.ATOMIC)
      then
        if LSQEntry.address_valid e then
          ov <- _addresses_overlap (LSQEntry.address e) (LSQEntry.size e)
                                  load_addr load_size;;
          if ov then
            if LSQEntry.data_valid e
               && bool_decide (LSQEntry.address e = load_addr)
               && bool_decide (LSQEntry.size e >= load_size)
            then ret (Some idx, true, LSQEntry.data e)
            else ret (Some idx, false, None)
          else ret acc
        else ret (Some idx, false, None)
      else ret acc
  | None => ret acc
  end.

Fixpoint scan (fuel : nat) (load_idx : Z) (load_addr : option Z)
    (load_size : Z) (idx : Z) (acc : scan_state) : M t scan_state :=
  if bool_decide (idx = load_idx) then ret acc else
  match fuel with
  | O => raise NonTermination
  | S fuel =>
      acc' <- scan_body load_addr load_size idx acc;;
      cap <- gets capacity;;
      idx' <- py_mod (idx + 1) cap;;
      scan fuel load_idx load_addr load_size idx' acc'
  end.

(** After its first step [idx] stays in [0, capacity) and advances by one
    modulo [capacity]: a loop that has not met [load_idx] within
    [capacity + 1] iterations never will. *)
Definition lap (q : t) : nat := S (Z.to_nat (capacity q)).

Definition check_dependency (load_idx : Z)
  : M t (bool * option Z * option Z) :=
  load_entry <- getitem load_idx;;
  match load_entry with
  | None => ret (false, None, None)
  | Some le =>
      if negb (LSQEntry.address_valid le) then ret (false, None, None) else
      q <- get;;
      '(latest_conflict_idx, can_forward, forward_data) <-
        scan (lap q) load_idx (LSQEntry.address le) (LSQEntry.size le)
             (head q) (None, false, None);;
      let has_conflict := bool_decide (latest_conflict_idx <> None) in
      ret (has_conflict,
            if can_forward then latest_conflict_idx else None,
            forward_data)
  end.

Definition mark_speculative (idx : Z) : M t unit :=
  update_at idx LSQEntry.with_speculative.

Definition mark_completed (idx : Z) : M t unit :=
  update_at idx LSQEntry.with_completed.

Definition commit_head : M t (option LSQEntry.t) :=
  empty <- is_empty;;
  if empty then ret None else
  hd <- gets head;;
  entry <- getitem hd;;
  let entry := LSQEntry.with_committed <$> entry in
  setitem hd None;;
  cap <- gets capacity;;
  hd' <- py_mod (hd + 1) cap;;
  modify (with_head hd');;
  modify (fun q => with_size (size q - 1) q);;
  ret entry.

(** The inner [while idx != self.tail] loop of [squash_from]. *)
Fixpoint squash_tail (fuel : nat) (idx : Z) : M t unit :=
  tl <- gets tail;;
  if bool_decide (idx = tl) then modify (with_tail idx) else
  match fuel with
  | O => raise NonTermination
  | S fuel =>
      e <- getitem idx;;
      (match e with
           | Some _ =>
               setitem idx None;;
               modify (fun q => with_size (size q - 1) q)
           | None => ret tt
           end);;
      cap <- gets capacity;;
      idx' <- py_mod (idx + 1) cap;;
      squash_tail fuel idx'
  end.

(** The outer [for _ in range(self.size)] loop; [n] is the number of
    iterations left. *)
Fixpoint squash_scan (n : nat) (seq_num : option Z) (idx : Z) : M t unit :=
  match n with
  | O => ret tt
  | S n =>
      entry <- getitem idx;;
      hit <- (match entry with
              | Some e => py_ge (Some (LSQEntry.seq_num e)) seq_num
              | None => ret false
              end);;
      if (hit : bool) then q <- get;; squash_tail (lap q) idx
      else
        cap <- gets capacity;;
        idx' <- py_mod (idx + 1) cap;;
        squash_scan n seq_num idx'
  end.

(** [seq_num] is [None] when the caller hands over the [seq_num] of an
    instruction that was never issued. *)
Definition squash_from (seq_num : option Z) : M t unit :=
  q <- get;; squash_scan (Z.to_nat (size q)) seq_num (head q).
End LoadStoreQueue.

(** ** predictor.py *)

Module StoreSetPredictor.
Record t := mk {
  ssit_size : Z;
  max_store_sets : Z;
  ssit : gmap Z Z;
  lfst : gmap Z Z;
  confidence : gmap Z Z;
  next_store_set_id : Z;
  free_store_sets : gset Z;
  predictions : Z;
  correct_predictions : Z;
  violations : Z
}.

#[global] Instance eq_dec : EqDecision t.
Proof. solve_decision. Defined.

Definition init (ssit_size max_store_sets : Z) : t :=
  mk ssit_size max_store_sets ∅ ∅ ∅ 0
     (list_to_set (seqZ 0 max_store_sets)) 0 0 0.

Definition with_ssit (m : gmap Z Z) (p : t) : t :=
  mk (ssit_size p) (max_store_sets p) m (lfst p) (confidence p)
     (next_store_set_id p) (free_store_sets p) (predictions p)
     (correct_predictions p) (violations p).
Definition with_lfst (m : gmap Z Z) (p : t) : t :=
  mk (ssit_size p) (max_store_sets p) (ssit p) m (confidence p)
     (next_store_set_id p) (free_store_sets p) (predictions p)
     (correct_predictions p) (violations p).
Definition with_confidence (m : gmap Z Z) (p : t) : t :=
  mk (ssit_size p) (max_store_sets p) (ssit p) (lfst p) m
     (next_store_set_id p) (free_store_sets p) (predictions p)
     (correct_predictions p) (violations p).
Definition with_free_store_sets (f : gset Z) (p : t) : t :=
  mk (ssit_size p) (max_store_sets p) (ssit p) (lfst p) (confidence p)
     (next_store_set_id p) f (predictions p)
     (correct_predictions p) (violations p).
Definition with_predictions (n : Z) (p : t) : t :=
  mk (ssit_size p) (max_store_sets p) (ssit p) (lfst p) (confidence p)
     (next_store_set_id p) (free_store_sets p) n
     (correct_predictions p) (violations p).
Definition with_correct_predictions (n : Z) (p : t) : t :=
  mk (ssit_size p) (max_store_sets p) (ssit p) (lfst p) (confidence p)
     (next_store_set_id p) (free_store_sets p) (predictions p)
     n (violations p).
Definition with_violations (n : Z) (p : t) : t :=
  mk (ssit_size p) (max_store_sets p) (ssit p) (lfst p) (confidence p)
     (next_store_set_id p) (free_store_sets p) (predictions p)
     (correct_predictions p) n.

Definition _get_ssit_index (pc : Z) : M t Z :=
  n <- gets ssit_size;;
  py_mod (Z.shiftr pc 2) n.

(** [self.confidence[pc]] on a [defaultdict(lambda: 2)]: a missing key is
    inserted with the default before it is returned. *)
Definition confidence_getitem (pc : Z) : M t Z :=
  p <- get;;
  match confidence p !! pc with
  | Some c => ret c
  | None => modify (with_confidence (<[pc := 2]> (confidence p)));; ret 2
  end.

Definition confidence_setitem (pc c : Z) : M t unit :=
  modify (fun p => with_confidence (<[pc := c]> (confidence p)) p).

Definition predict_load (load_pc : Z) : M t (bool * option Z) :=
  modify (fun p => with_predictions (predictions p + 1) p);;
  ssit_idx <- _get_ssit_index load_pc;;
  store_set_id <- gets (fun p => ssit p !! ssit_idx);;
  conf <- confidence_getitem load_pc;;
  match store_set_id with
  | None => ret (true, None)
  | Some sid =>
      if bool_decide (conf >= 2) then ret (true, None) else
      l <- gets lfst;;
      match l !! sid with
      | Some last_store_seq => ret (false, Some last_store_seq)
      | None => ret (true, None)
      end
  end.

Definition register_store (store_pc seq_num : Z) : M t unit :=
  ssit_idx <- _get_ssit_index store_pc;;
  store_set_id <- gets (fun p => ssit p !! ssit_idx);;
  match store_set_id with
  | Some sid => modify (fun p => with_lfst (<[sid := seq_num]> (lfst p)) p)
  | None => ret tt
  end.

Definition clear_store (store_pc : Z) : M t unit :=
  ssit_idx <- _get_ssit_index store_pc;;
  store_set_id <- gets (fun p => ssit p !! ssit_idx);;
  match store_set_id with
  | Some sid =>
      l <- gets lfst;;
      if bool_decide (is_Some (l !! sid))
      then modify (fun p => with_lfst (delete sid (lfst p)) p)
      else ret tt
  | None => ret tt
  end.

Definition report_correct_speculation (load_pc : Z) : M t unit :=
  modify (fun p => with_correct_predictions (correct_predictions p + 1) p);;
  c <- confidence_getitem load_pc;;
  if bool_decide (c < 3) then
    c' <- confidence_getitem load_pc;;
    confidence_setitem load_pc (c' + 1)
  else ret tt.

Section with_set_pop.
(** [set.pop()] removes and returns an arbitrary element; which one is
    left to the interpreter. *)
Variable set_pop : gset Z -> Z.

Definition _allocate_store_set : M t (option Z) :=
  free <- gets free_store_sets;;
  if bool_decide (free <> ∅) then
    let x := set_pop free in
    modify (with_free_store_sets (free ∖ {[x]}));;
    ret (Some x)
  else
    p <- get;;
    match List.find (fun set_id => bool_decide (lfst p !! set_id = None))
                    (seqZ 0 (max_store_sets p)) with
    | Some set_id =>
        modify (fun p =>
          with_ssit (filter (fun kv => kv.2 <> set_id) (ssit p)) p);;
        ret (Some set_id)
    | None => ret None
    end.

Definition report_violation (load_pc store_pc : Z) : M t unit :=
  modify (fun p => with_violations (violations p + 1) p);;
  load_idx <- _get_ssit_index load_pc;;
  store_idx <- _get_ssit_index store_pc;;
  load_set <- gets (fun p => ssit p !! load_idx);;
  store_set <- gets (fun p => ssit p !! store_idx);;
  (match load_set, store_set with
   | None, None =>
       new_set_id <- _allocate_store_set;;
       match new_set_id with
       | Some n =>
           modify (fun p => with_ssit (<[load_idx := n]> (ssit p)) p);;
           modify (fun p => with_ssit (<[store_idx := n]> (ssit p)) p)
       | None => ret tt
       end
   | None, Some ss =>
       modify (fun p => with_ssit (<[load_idx := ss]> (ssit p)) p)
   | Some ls, None =>
       modify (fun p => with_ssit (<[store_idx := ls]> (ssit p)) p)
   | Some ls, Some ss =>
       if bool_decide (ls <> ss) then
         modify (fun p =>
           with_ssit ((fun v => if bool_decide (v = ss) then ls else v)
                        <$> ssit p) p);;
         modify (fun p =>
           with_free_store_sets (free_store_sets p ∪ {[ss]}) p)
       else ret tt
   end);;
  c <- confidence_getitem load_pc;;
  if bool_decide (c > 0) then
    c' <- confidence_getitem load_pc;;
    confidence_setitem load_pc (c' - 1)
  else ret tt.
End with_set_pop.
End StoreSetPredictor.

(** ** synchronization.py *)

Module AtomicOperation.
Record t := mk {
  op_type : string;
  address : Z;
  seq_num : Z;
  old_value : option Z;
  new_value : option Z;
  expected_value : option Z;
  lock_acquired : bool;
  completed : bool;
  success : bool
}.

Definition init (op_type : string) (address seq_num : Z) : t :=
  mk op_type address seq_num None None None false false false.

Definition with_old_value (v : Z) (a : t) : t :=
  mk (op_type a) (address a) (seq_num a) (Some v) (new_value a)
     (expected_value a) (lock_acquired a) (completed a) (success a).
Definition with_new_value (v : Z) (a : t) : t :=
  mk (op_type a) (address a) (seq_num a) (old_value a) (Some v)
     (expected_value a) (lock_acquired a) (completed a) (success a).
Definition with_expected_value (v : Z) (a : t) : t :=
  mk (op_type a) (address a) (seq_num a) (old_value a) (new_value a)
     (Some v) (lock_acquired a) (completed a) (success a).
Definition with_success (b : bool) (a : t) : t :=
  mk (op_type a) (address a) (seq_num a) (old_value a) (new_value a)
     (expected_value a) (lock_acquired a) (completed a) b.

Definition execute (memory_value write_value : Z) (expected : option Z)
  : M t (bool * Z) :=
  modify (with_old_value memory_value);;
  op <- gets op_type;;
  if bool_decide (op = "SWAP"%string) then
    modify (with_new_value write_value);;
    modify (with_success true);;
    ret (true, memory_value)
  else if bool_decide (op = "CAS"%string) then
    match expected with
    | None => ret (false, memory_value)
    | Some e =>
        modify (with_expected_value e);;
        if bool_decide (memory_value = e) then
          modify (with_new_value write_value);;
          modify (with_success true);;
          ret (true, memory_value)
        else
          modify (with_success false);;
          ret (false, memory_value)
    end
  else if bool_decide (op = "FADD"%string) then
    modify (with_new_value (memory_value + write_value));;
    modify (with_success true);;
    ret (true, memory_value)
  else ret (false, memory_value).
End AtomicOperation.

(** ** pipeline.py *)

Module InstructionType.
Inductive t := LOAD | STORE | ALU | BRANCH | FENCE.

#[global] Instance eq_dec : EqDecision t.
Proof. solve_decision. Defined.
End InstructionType.

Module Instruction.
Record t := mk {
  pc : Z;
  instr_type : InstructionType.t;
  dst_reg : option Z;
  src_regs : list Z;
  immediate : Z;
  seq_num : option Z;
  lsq_idx : option Z;
  address : option Z;
  data : option Z;
  issued : bool;
  executed : bool;
  completed : bool;
  committed : bool;
  speculative : bool
}.

#[global] Instance eq_dec : EqDecision t.
Proof. solve_decision. Defined.

(** [src_regs or []] and [immediate or 0] are taken by the caller: an
    absent argument is passed as [[]] and [0]. *)
Definition init (pc : Z) (instr_type : InstructionType.t)
    (dst_reg : option Z) (src_regs : list Z) (immediate : Z) : t :=
  mk pc instr_type dst_reg src_regs immediate
     None None None None false false false false false.

Definition with_seq_num (n : Z) (i : t) : t :=
  mk (pc i) (instr_type i) (dst_reg i) (src_regs i) (immediate i)
     (Some n) (lsq_idx i) (address i) (data i)
     (issued i) (executed i) (completed i) (committed i) (speculative i).
Definition with_lsq_idx (n : Z) (i : t) : t :=
  mk (pc i) (instr_type i) (dst_reg i) (src_regs i) (immediate i)
     (seq_num i) (Some n) (address i) (data i)
     (issued i) (executed i) (completed i) (committed i) (speculative i).
Definition with_address (a : Z) (i : t) : t :=
  mk (pc i) (instr_type i) (dst_reg i) (src_regs i) (immediate i)
     (seq_num i) (lsq_idx i) (Some a) (data i)
     (issued i) (executed i) (completed i) (committed i) (speculative i).
Definition with_data (d : Z) (i : t) : t :=
  mk (pc i) (instr_type i) (dst_reg i) (src_regs i) (immediate i)
     (seq_num i) (lsq_idx i) (address i) (Some d)
     (issued i) (executed i) (completed i) (committed i) (speculative i).
Definition with_issued (i : t) : t :=
  mk (pc i) (instr_type i) (dst_reg i) (src_regs i) (immediate i)
     (seq_num i) (lsq_idx i) (address i) (data i)
     true (executed i) (completed i) (committed i) (speculative i).
Definition with_executed (i : t) : t :=
  mk (pc i) (instr_type i) (dst_reg i) (src_regs i) (immediate i)
     (seq_num i) (lsq_idx i) (address i) (data i)
     (issued i) true (completed i) (committed i) (speculative i).
Definition with_completed (i : t) : t :=
  mk (pc i) (instr_type i) (dst_reg i) (src_regs i) (immediate i)
     (seq_num i) (lsq_idx i) (address i) (data i)
     (issued i) (executed i) true (committed i) (speculative i).
Definition with_committed (i : t) : t :=
  mk (pc i) (instr_type i) (dst_reg i) (src_regs i) (immediate i)
     (seq_num i) (lsq_idx i) (address i) (data i)
     (issued i) (executed i) (completed i) true (speculative i).
Definition with_speculative (i : t) : t :=
  mk (pc i) (instr_type i) (dst_reg i) (src_regs i) (immediate i)
     (seq_num i) (lsq_idx i) (address i) (data i)
     (issued i) (executed i) (completed i) (committed i) true.
End Instruction.

(** [Instruction] objects are shared: the caller, the instruction stream and
    the ROB all hold references to the same object, and every stage mutates
    it in place.  A reference is a key of the object store. *)
Abbreviation ref := nat.
Abbreviation store := (gmap nat Instruction.t).

Module ReorderBuffer.
Record t := mk {
  capacity : Z;
  entries : list (option ref);
  head : Z;
  tail : Z;
  size : Z
}.

#[global] Instance eq_dec : EqDecision t.
Proof. solve_decision. Defined.

Definition init (capacity : Z) : t :=
  mk capacity (replicate (Z.to_nat capacity) None) 0 0 0.

Definition with_entries (l : list (option ref)) (b : t) : t :=
  mk (capacity b) l (head b) (tail b) (size b).
Definition with_head (h : Z) (b : t) : t :=
  mk (capacity b) (entries b) h (tail b) (size b).
Definition with_tail (tl : Z) (b : t) : t :=
  mk (capacity b) (entries b) (head b) tl (size b).
Definition with_size (n : Z) (b : t) : t :=
  mk (capacity b) (entries b) (head b) (tail b) n.

(** The ROB's methods read and write the instructions its entries refer
    to, so they run over the object store paired with the buffer. *)
Definition st : Type := store * t.

Definition rob : M st t := gets snd.
Definition modify_rob (f : t -> t) : M st unit :=
  modify (fun s => (s.1, f s.2)).

Definition deref (r : ref) : M st Instruction.t :=
  s <- get;;
  match s.1 !! r with
  | Some i => ret i
  | None => raise Dangling
  end.

Definition update (r : ref) (f : Instruction.t -> Instruction.t) : M st unit :=
  i <- deref r;;
  modify (fun s => (<[r := f i]> s.1, s.2)).

Definition getitem (idx : Z) : M st (option ref) :=
  b <- rob;;
  match py_getitem (entries b) idx with
  | Some e => ret e
  | None => raise IndexError
  end.

Definition setitem (idx : Z) (e : option ref) : M st unit :=
  b <- rob;;
  match py_setitem (entries b) idx e with
  | Some l => modify_rob (with_entries l)
  | None => raise IndexError
  end.

Definition is_full : M st bool :=
  b <- rob;; ret (bool_decide (size b >= capacity b)).

Definition is_empty : M st bool :=
  b <- rob;; ret (bool_decide (size b = 0)).

Definition allocate (instr : ref) : M st (option Z) :=
  full <- is_full;;
  if full then ret None else
  b <- rob;;
  let idx := tail b in
  setitem idx (Some instr);;
  tl' <- py_mod (tail b + 1) (capacity b);;
  modify_rob (with_tail tl');;
  modify_rob (fun b => with_size (size b + 1) b);;
  ret (Some idx).

Definition commit_head : M st (option ref) :=
  empty <- is_empty;;
  if empty then ret None else
  b <- rob;;
  e <- getitem (head b);;
  match e with
  | Some r =>
      i <- deref r;;
      if Instruction.completed i then
        update r Instruction.with_committed;;
        setitem (head b) None;;
        hd' <- py_mod (head b + 1) (capacity b);;
        modify_rob (with_head hd');;
        modify_rob (fun b => with_size (size b - 1) b);;
        ret (Some r)
      else ret None
  | None => ret None
  end.

Definition lap (b : t) : nat := S (Z.to_nat (capacity b)).

Fixpoint squash_tail (fuel : nat) (idx : Z) : M st unit :=
  b <- rob;;
  if bool_decide (idx = tail b) then modify_rob (with_tail idx) else
  match fuel with
  | O => raise NonTermination
  | S fuel =>
      e <- getitem idx;;
      (match e with
       | Some _ => modify_rob (fun b => with_size (size b - 1) b)
       | None => ret tt
       end);;
      setitem idx None;;
      idx' <- py_mod (idx + 1) (capacity b);;
      squash_tail fuel idx'
  end.

(** [instr.seq_num >= seq_num] *)
Definition seq_ge (r : ref) (seq_num : option Z) : M st bool :=
  i <- deref r;;
  py_ge (Instruction.seq_num i) seq_num.

Fixpoint squash_scan (n : nat) (seq_num : option Z) (idx : Z) : M st unit :=
  match n with
  | O => ret tt
  | S n =>
      e <- getitem idx;;
      hit <- (match e with
              | Some r => seq_ge r seq_num
              | None => ret false
              end);;
      if (hit : bool) then b <- rob;; squash_tail (lap b) idx
      else
        b <- rob;;
        idx' <- py_mod (idx + 1) (capacity b);;
        squash_scan n seq_num idx'
  end.

Definition squash_from (seq_num : option Z) : M st unit :=
  b <- rob;; squash_scan (Z.to_nat (size b)) seq_num (head b).
End ReorderBuffer.

Module Pipeline.
Record t := mk {
  (** the [Instruction] objects reachable from the pipeline and its callers *)
  instrs : store;
  rob : ReorderBuffer.t;
  lsq : LoadStoreQueue.t;
  predictor : StoreSetPredictor.t;
  registers : list Z;
  memory : gmap Z Z;
  next_seq_num : Z;
  cycle : Z;
  pc : Z;
  instructions_committed : Z;
  loads_executed : Z;
  stores_executed : Z;
  speculation_violations : Z;
  forwarding_events : Z
}.

Definition init (rob_size lsq_size : Z) : t :=
  mk ∅ (ReorderBuffer.init rob_size) (LoadStoreQueue.init lsq_size)
     (StoreSetPredictor.init 256 64) (replicate 32 0) ∅ 0 0 0 0 0 0 0 0.

Definition with_instrs (x : store) (w : t) : t :=
  mk x (rob w) (lsq w) (predictor w) (registers w) (memory w)
     (next_seq_num w) (cycle w) (pc w) (instructions_committed w)
     (loads_executed w) (stores_executed w) (speculation_violations w)
     (forwarding_events w).
Definition with_rob (x : ReorderBuffer.t) (w : t) : t :=
  mk (instrs w) x (lsq w) (predictor w) (registers w) (memory w)
     (next_seq_num w) (cycle w) (pc w) (instructions_committed w)
     (loads_executed w) (stores_executed w) (speculation_violations w)
     (forwarding_events w).
Definition with_lsq (x : LoadStoreQueue.t) (w : t) : t :=
  mk (instrs w) (rob w) x (predictor w) (registers w) (memory w)
     (next_seq_num w) (cycle w) (pc w) (instructions_committed w)
     (loads_executed w) (stores_executed w) (speculation_violations w)
     (forwarding_events w).
Definition with_predictor (x : StoreSetPredictor.t) (w : t) : t :=
  mk (instrs w) (rob w) (lsq w) x (registers w) (memory w)
     (next_seq_num w) (cycle w) (pc w) (instructions_committed w)
     (loads_executed w) (stores_executed w) (speculation_violations w)
     (forwarding_events w).
Definition with_registers (x : list Z) (w : t) : t :=
  mk (instrs w) (rob w) (lsq w) (predictor w) x (memory w)
     (next_seq_num w) (cycle w) (pc w) (instructions_committed w)
     (loads_executed w) (stores_executed w) (speculation_violations w)
     (forwarding_events w).
Definition with_memory (x : gmap Z Z) (w : t) : t :=
  mk (instrs w) (rob w) (lsq w) (predictor w) (registers w) x
     (next_seq_num w) (cycle w) (pc w) (instructions_committed w)
     (loads_executed w) (stores_executed w) (speculation_violations w)
     (forwarding_events w).
Definition with_next_seq_num (x : Z) (w : t) : t :=
  mk (instrs w) (rob w) (lsq w) (predictor w) (registers w) (memory w)
     x (cycle w) (pc w) (instructions_committed w)
     (loads_executed w) (stores_executed w) (speculation_violations w)
     (forwarding_events w).
Definition with_cycle (x : Z) (w : t) : t :=
  mk (instrs w) (rob w) (lsq w) (predictor w) (registers w) (memory w)
     (next_seq_num w) x (pc w) (instructions_committed w)
     (loads_executed w) (stores_executed w) (speculation_violations w)
     (forwarding_events w).
Definition with_pc (x : Z) (w : t) : t :=
  mk (instrs w) (rob w) (lsq w) (predictor w) (registers w) (memory w)
     (next_seq_num w) (cycle w) x (instructions_committed w)
     (loads_executed w) (stores_executed w) (speculation_violations w)
     (forwarding_events w).
Definition with_instructions_committed (x : Z) (w : t) : t :=
  mk (instrs w) (rob w) (lsq w) (predictor w) (registers w) (memory w)
     (next_seq_num w) (cycle w) (pc w) x
     (loads_executed w) (stores_executed w) (speculation_violations w)
     (forwarding_events w).
Definition with_loads_executed (x : Z) (w : t) : t :=
  mk (instrs w) (rob w) (lsq w) (predictor w) (registers w) (memory w)
     (next_seq_num w) (cycle w) (pc w) (instructions_committed w)
     x (stores_executed w) (speculation_violations w)
     (forwarding_events w).
Definition with_stores_executed (x : Z) (w : t) : t :=
  mk (instrs w) (rob w) (lsq w) (predictor w) (registers w) (memory w)
     (next_seq_num w) (cycle w) (pc w) (instructions_committed w)
     (loads_executed w) x (speculation_violations w)
     (forwarding_events w).
Definition with_speculation_violations (x : Z) (w : t) : t :=
  mk (instrs w) (rob w) (lsq w) (predictor w) (registers w) (memory w)
     (next_seq_num w) (cycle w) (pc w) (instructions_committed w)
     (loads_executed w) (stores_executed w) x
     (forwarding_events w).
Definition with_forwarding_events (x : Z) (w : t) : t :=
  mk (instrs w) (rob w) (lsq w) (predictor w) (registers w) (memory w)
     (next_seq_num w) (cycle w) (pc w) (instructions_committed w)
     (loads_executed w) (stores_executed w) (speculation_violations w)
     x.

(** Calls into the sub-objects. *)
Definition in_rob {A} (m : M ReorderBuffer.st A) : M t A :=
  zoom (fun w => (instrs w, rob w))
       (fun s w => with_rob s.2 (with_instrs s.1 w)) m.
Definition in_lsq {A} (m : M LoadStoreQueue.t A) : M t A :=
  zoom lsq with_lsq m.
Definition in_predictor {A} (m : M StoreSetPredictor.t A) : M t A :=
  zoom predictor with_predictor m.

Definition deref (r : ref) : M t Instruction.t :=
  w <- get;;
  match instrs w !! r with
  | Some i => ret i
  | None => raise Dangling
  end.

Definition update (r : ref) (f : Instruction.t -> Instruction.t) : M t unit :=
  i <- deref r;;
  modify (fun w => with_instrs (<[r := f i]> (instrs w)) w).

(** [self.registers[r]] read and written. *)
Definition read_reg (r : Z) : M t Z :=
  w <- get;;
  match py_getitem (registers w) r with
  | Some v => ret v
  | None => raise IndexError
  end.

Definition write_reg (r : Z) (v : Z) : M t unit :=
  w <- get;;
  match py_setitem (registers w) r v with
  | Some l => modify (with_registers l)
  | None => raise IndexError
  end.

(** [if instr.dst_reg is not None: self.registers[instr.dst_reg] = v] *)
Definition write_dst (dst_reg : option Z) (v : Z) : M t unit :=
  match dst_reg with
  | Some d => write_reg d v
  | None => ret tt
  end.

(** [sum(self.registers[r] for r in src_regs)] *)
Fixpoint sum_regs (src_regs : list Z) (acc : Z) : M t Z :=
  match src_regs with
  | [] => ret acc
  | r :: rest => v <- read_reg r;; sum_regs rest (acc + v)
  end.

(** [self.lsq.check_dependency(instr.lsq_idx)]: indexing the entry list
    with [None] raises [TypeError]. *)
Definition check_dependency (lsq_idx : option Z)
  : M t (bool * option Z * option Z) :=
  match lsq_idx with
  | Some i => in_lsq (LoadStoreQueue.check_dependency i)
  | None => raise TypeError
  end.

Definition issue_instruction (instr : ref) : M t bool :=
  full <- in_rob ReorderBuffer.is_full;;
  if full then ret false else
  rob_idx <- in_rob (ReorderBuffer.allocate instr);;
  match rob_idx with
  | None => ret false
  | Some _ =>
      n <- gets next_seq_num;;
      update instr (Instruction.with_seq_num n);;
      modify (fun w => with_next_seq_num (next_seq_num w + 1) w);;
      i <- deref instr;;
      if bool_decide (Instruction.instr_type i = InstructionType.LOAD
                      \/ Instruction.instr_type i = InstructionType.STORE)
      then
        let op_type :=
          if decide (Instruction.instr_type i = InstructionType.LOAD)
          then MemOpType.LOAD else MemOpType.STORE in
        lsq_idx <- in_lsq (LoadStoreQueue.allocate n (Instruction.pc i) op_type 4);;
        match lsq_idx with
        | None => ret false
        | Some idx =>
            update instr (Instruction.with_lsq_idx idx);;
            (if decide (Instruction.instr_type i = InstructionType.STORE)
             then in_predictor
                    (StoreSetPredictor.register_store (Instruction.pc i) n)
             else ret tt);;
            update instr Instruction.with_issued;;
            ret true
        end
      else
        update instr Instruction.with_issued;;
        ret true
  end.

Definition _execute_load (instr : ref) : M t bool :=
  i <- deref instr;;
  base_addr <- (match Instruction.src_regs i with
                | r :: _ => read_reg r
                | [] => ret 0
                end);;
  let address := base_addr + Instruction.immediate i in
  update instr (Instruction.with_address address);;
  (match Instruction.lsq_idx i with
   | Some idx => in_lsq (LoadStoreQueue.update_address idx address)
   | None => ret tt
   end);;
  '(has_dep, fwd_idx, fwd_data) <- check_dependency (Instruction.lsq_idx i);;
  match fwd_data with
  | Some fwd =>
      update instr (Instruction.with_data fwd);;
      write_dst (Instruction.dst_reg i) fwd;;
      modify (fun w => with_forwarding_events (forwarding_events w + 1) w);;
      update instr Instruction.with_executed;;
      update instr Instruction.with_completed;;
      modify (fun w => with_loads_executed (loads_executed w + 1) w);;
      ret true
  | None =>
      '(can_speculate, wait_seq) <-
        in_predictor (StoreSetPredictor.predict_load (Instruction.pc i));;
      if negb can_speculate || has_dep then ret false else
      mem <- gets memory;;
      let data := default 0 (mem !! address) in
      update instr (Instruction.with_data data);;
      write_dst (Instruction.dst_reg i) data;;
      update instr Instruction.with_speculative;;
      update instr Instruction.with_executed;;
      update instr Instruction.with_completed;;
      (match Instruction.lsq_idx i with
       | Some idx =>
           in_lsq (LoadStoreQueue.mark_speculative idx);;
           in_lsq (LoadStoreQueue.mark_completed idx)
       | None => ret tt
       end);;
      modify (fun w => with_loads_executed (loads_executed w + 1) w);;
      ret true
  end.

Definition _execute_store (instr : ref) : M t bool :=
  i <- deref instr;;
  base_addr <- (match Instruction.src_regs i with
                | r :: _ => read_reg r
                | [] => ret 0
                end);;
  let address := base_addr + Instruction.immediate i in
  update instr (Instruction.with_address address);;
  let data_reg := match Instruction.src_regs i with
                  | _ :: r :: _ => r
                  | _ => 0
                  end in
  data <- read_reg data_reg;;
  update instr (Instruction.with_data data);;
  (match Instruction.lsq_idx i with
   | Some idx =>
       in_lsq (LoadStoreQueue.update_address idx address);;
       in_lsq (LoadStoreQueue.update_data idx data);;
       in_lsq (LoadStoreQueue.mark_completed idx)
   | None => ret tt
   end);;
  update instr Instruction.with_executed;;
  update instr Instruction.with_completed;;
  modify (fun w => with_stores_executed (stores_executed w + 1) w);;
  ret true.

Definition execute_instruction (instr : ref) : M t bool :=
  i <- deref instr;;
  if negb (Instruction.issued i) || Instruction.executed i then ret false else
  match Instruction.instr_type i with
  | InstructionType.ALU =>
      s <- sum_regs (Instruction.src_regs i) 0;;
      let result := s + Instruction.immediate i in
      write_dst (Instruction.dst_reg i) result;;
      update instr Instruction.with_executed;;
      update instr Instruction.with_completed;;
      ret true
  | InstructionType.LOAD => _execute_load instr
  | InstructionType.STORE => _execute_store instr
  | _ => ret false
  end.

Definition _validate_load (load_instr : ref) : M t bool :=
  i <- deref load_instr;;
  match Instruction.lsq_idx i with
  | None => ret false
  | Some idx =>
      '(has_dep, fwd_idx, fwd_data) <-
        in_lsq (LoadStoreQueue.check_dependency idx);;
      match fwd_data with
      | Some fwd =>
          if bool_decide (Instruction.data i <> Some fwd)
          then ret true else ret false
      | None => ret false
      end
  end.

Section with_set_pop.
Variable set_pop : gset Z -> Z.

Definition _recover_from_violation (violating_instr : ref) : M t unit :=
  i <- deref violating_instr;;
  (match Instruction.lsq_idx i with
   | Some idx =>
       '(has_dep, fwd_idx, _) <-
         in_lsq (LoadStoreQueue.check_dependency idx);;
       match has_dep, fwd_idx with
       | true, Some fwd =>
           store_entry <- in_lsq (LoadStoreQueue.getitem fwd);;
           match store_entry with
           | Some se =>
               in_predictor
                 (StoreSetPredictor.report_violation set_pop
                    (Instruction.pc i) (LSQEntry.pc se))
           | None => ret tt
           end
       | _, _ => ret tt
       end
   | None => ret tt
   end);;
  in_rob (ReorderBuffer.squash_from (Instruction.seq_num i));;
  in_lsq (LoadStoreQueue.squash_from (Instruction.seq_num i));;
  modify (with_pc (Instruction.pc i)).

Definition commit_instruction : M t (option ref) :=
  r <- in_rob ReorderBuffer.commit_head;;
  match r with
  | None => ret None
  | Some instr =>
      i <- deref instr;;
      violation <-
        (if bool_decide (Instruction.instr_type i = InstructionType.LOAD)
            && Instruction.speculative i
         then _validate_load instr else ret false);;
      if (violation : bool) then
        modify (fun w =>
          with_speculation_violations (speculation_violations w + 1) w);;
        _recover_from_violation instr;;
        ret None
      else
        (if bool_decide (Instruction.instr_type i = InstructionType.LOAD)
            && Instruction.speculative i
         then in_predictor
                (StoreSetPredictor.report_correct_speculation
                   (Instruction.pc i))
         else ret tt);;
        (if decide (Instruction.instr_type i = InstructionType.STORE)
         then
           match Instruction.address i, Instruction.data i with
           | Some a, Some d =>
               modify (fun w => with_memory (<[a := d]> (memory w)) w)
           | _, _ =>
               (* [self.memory[None] = ...]: not a [Dict[int, int]] *)
               raise IllTyped
           end;;
           in_predictor (StoreSetPredictor.clear_store (Instruction.pc i))
         else ret tt);;
        modify (fun w =>
          with_instructions_committed (instructions_committed w + 1) w);;
        ret (Some instr)
  end.

(** [instruction_stream] is the caller's list, popped in place; the
    method returns what is left of it. *)
Definition cycle_step (instruction_stream : list ref) : M t (list ref) :=
  modify (fun w => with_cycle (cycle w + 1) w);;
  commit_instruction;;
  match instruction_stream with
  | next_instr :: rest =>
      full <- in_rob ReorderBuffer.is_full;;
      if negb full then
        ok <- issue_instruction next_instr;;
        if (ok : bool) then ret rest else ret instruction_stream
      else ret instruction_stream
  | [] => ret instruction_stream
  end.
End with_set_pop.
End Pipeline.

(** ** A concrete interpreter choice for [set.pop()]

    Used wherever a statement needs a closed run: the smallest element. *)
Definition pop_min (s : gset Z) : Z :=
  foldr Z.min (hd 0 (elements s)) (elements s).

(** * Specification vocabulary *)

(** A well-formed queue: the entry list has [capacity] slots, [head] points
    into it, and an entry whose address is marked valid has an address. *)
Definition lsq_wf (q : LoadStoreQueue.t) : Prop :=
  0 < LoadStoreQueue.capacity q
  /\ Z.of_nat (length (LoadStoreQueue.entries q)) = LoadStoreQueue.capacity q
  /\ 0 <= LoadStoreQueue.head q < LoadStoreQueue.capacity q
  /\ forall (i : nat) (e : LSQEntry.t),
       LoadStoreQueue.entries q !! i = Some (Some e) ->
       LSQEntry.address_valid e = true -> is_Some (LSQEntry.address e).

(** [Instruction(...)]: the caller creates a new object; [r] is a reference
    that was not in use. *)
Definition new_instruction (r : ref) (i : Instruction.t) (w : Pipeline.t)
  : Pipeline.t :=
  Pipeline.with_instrs (<[r := i]> (Pipeline.instrs w)) w.

(** Which instructions have been through the execute stage. *)
Definition executed_flags (h : store) : gmap nat (bool * bool) :=
  (fun i => (Instruction.executed i, Instruction.completed i)) <$> h.

(** The fields [cycle_step] must not touch: it has no execute stage. *)
Definition execute_view (w : Pipeline.t) :=
  (executed_flags (Pipeline.instrs w), Pipeline.registers w,
   Pipeline.loads_executed w, Pipeline.stores_executed w).

(** The state a call leaves behind (the state it started from when it
    fails). *)
Definition final {S A} (m : M S A) (s : S) : S :=
  match m s with
  | Ret _ s' => s'
  | Fail _ => s
  end.

(** ** Concrete runs *)

(** The run of [lsq.py]'s self-test: a store to 0x2000 with its data, then a
    load from 0x2000, in a queue of 8. *)
Definition q_store_load : LoadStoreQueue.t :=
  final (LoadStoreQueue.allocate 1 4096 MemOpType.STORE 4;;
         LoadStoreQueue.update_address 0 8192;;
         LoadStoreQueue.update_data 0 3735928559;;
         LoadStoreQueue.allocate 2 4100 MemOpType.LOAD 4;;
         LoadStoreQueue.update_address 1 8192)
        (LoadStoreQueue.init 8).

(** A store, issued and executed on a fresh pipeline: reference 0, address
    0x1000 (the immediate; no base register), data [registers[0]]. *)
Definition store_ready : M Pipeline.t bool :=
  modify (new_instruction 0%nat
            (Instruction.init 4096 InstructionType.STORE None [] 4096));;
  Pipeline.issue_instruction 0%nat;;
  Pipeline.execute_instruction 0%nat.

Definition w_store_ready : Pipeline.t := final store_ready (Pipeline.init 32 16).
Definition w_store_committed : Pipeline.t :=
  final (Pipeline.commit_instruction pop_min) w_store_ready.

(** A load from 0x1000 into r3, issued on a fresh pipeline: reference 0. *)
Definition load_issued : M Pipeline.t bool :=
  modify (new_instruction 0%nat
            (Instruction.init 4100 InstructionType.LOAD (Some 3) [] 4096));;
  Pipeline.issue_instruction 0%nat.

Definition w_load_issued : Pipeline.t := final load_issued (Pipeline.init 32 16).

(** A store (reference 0) and then a load from 0x2000 (reference 1), both
    issued, neither executed: the store's address is still unknown. *)
Definition store_then_load_issued : M Pipeline.t bool :=
  modify (new_instruction 0%nat
            (Instruction.init 4096 InstructionType.STORE None [] 4096));;
  modify (new_instruction 1%nat
            (Instruction.init 4100 InstructionType.LOAD (Some 3) [] 8192));;
  Pipeline.issue_instruction 0%nat;;
  Pipeline.issue_instruction 1%nat.

Definition w_store_load_issued : Pipeline.t :=
  final store_then_load_issued (Pipeline.init 32 16).

(** Its LSQ once the load's address 0x2000 is written, and the pipeline once
    the load's execution has been attempted. *)
Definition q_load_addressed : LoadStoreQueue.t :=
  final (LoadStoreQueue.update_address 1 8192)
        (Pipeline.lsq w_store_load_issued).
Definition w_load_attempted : Pipeline.t :=
  final (Pipeline._execute_load 1%nat) w_store_load_issued.

(** An ALU instruction (r3 := 5), issued on a fresh pipeline and ready to
    execute: reference 0. *)
Definition alu_issued : M Pipeline.t bool :=
  modify (new_instruction 0%nat
            (Instruction.init 4096 InstructionType.ALU (Some 3) [] 5));;
  Pipeline.issue_instruction 0%nat.

Definition w_alu_issued : Pipeline.t := final alu_issued (Pipeline.init 32 16).
Definition w_alu_cycle : Pipeline.t :=
  final (Pipeline.cycle_step pop_min []) w_alu_issued.

(** A violation between load 0x304 and store 0x300 puts both into store set
    0; one correct speculation brings the load's confidence back to 2; the
    store is then registered with sequence number 1. *)
Definition p_confident : StoreSetPredictor.t :=
  final (StoreSetPredictor.report_violation pop_min 772 768;;
         StoreSetPredictor.report_correct_speculation 772;;
         StoreSetPredictor.register_store 768 1)
        (StoreSetPredictor.init 256 64).

(** Store 0x300 is in a set and registered with sequence number 5; it is
    then registered again with 6 and cleared. *)
Definition p_registered : StoreSetPredictor.t :=
  final (StoreSetPredictor.report_violation pop_min 772 768;;
         StoreSetPredictor.register_store 768 5)
        (StoreSetPredictor.init 256 64).
Definition p_cleared : StoreSetPredictor.t :=
  final (StoreSetPredictor.register_store 768 6;;
         StoreSetPredictor.clear_store 768) p_registered.

(** Two sets, a store in flight in the second, then a violation that merges
    the second into the first. *)
Definition p_merged : StoreSetPredictor.t :=
  final (StoreSetPredictor.report_violation pop_min 4096 4104;;
         StoreSetPredictor.report_violation pop_min 8196 8204;;
         StoreSetPredictor.register_store 8204 7;;
         StoreSetPredictor.report_violation pop_min 4096 8204)
        (StoreSetPredictor.init 256 64).

(** ** Reachable pipeline states and the architectural value of a load *)

Section reachability.
(** The interpreter's [set.pop()], and which objects the caller may hand to
    the issue stage. *)
Variable set_pop : gset Z -> Z.
Variable may_issue : Pipeline.t -> ref -> Prop.

(** The states a program can bring a pipeline into: it constructs the
    pipeline and instruction objects, writes registers (as the self-test of
    [pipeline.py] does), and calls the four public methods. *)
Inductive reachable : Pipeline.t -> Prop :=
  | reach_init rob_size lsq_size :
      reachable (Pipeline.init rob_size lsq_size)
  | reach_new w r pc instr_type dst_reg src_regs immediate :
      reachable w ->
      Pipeline.instrs w !! r = None ->
      reachable (new_instruction r
                   (Instruction.init pc instr_type dst_reg src_regs immediate)
                   w)
  | reach_set_register w k v regs :
      reachable w ->
      py_setitem (Pipeline.registers w) k v = Some regs ->
      reachable (Pipeline.with_registers regs w)
  | reach_issue w r ok w' :
      reachable w ->
      may_issue w r ->
      Pipeline.issue_instruction r w = Ret ok w' ->
      reachable w'
  | reach_execute w r ok w' :
      reachable w ->
      Pipeline.execute_instruction r w = Ret ok w' ->
      reachable w'
  | reach_commit w c w' :
      reachable w ->
      Pipeline.commit_instruction set_pop w = Ret c w' ->
      reachable w'
  | reach_cycle_step w stream stream' w' :
      reachable w ->
      (forall r, head stream = Some r -> may_issue w r) ->
      Pipeline.cycle_step set_pop stream w = Ret stream' w' ->
      reachable w'.
End reachability.

(** No restriction on what is issued, and the discipline of a program that
    issues every instruction object at most once: an object may be handed to
    the issue stage only while it has no sequence number. *)
Definition any_issue (w : Pipeline.t) (r : ref) : Prop := True.

Definition first_issue (w : Pipeline.t) (r : ref) : Prop :=
  forall i, Pipeline.instrs w !! r = Some i -> Instruction.seq_num i = None.

(** [_addresses_overlap] on known addresses. *)
Definition overlaps (addr1 size1 addr2 size2 : Z) : bool :=
  negb (bool_decide (addr1 + size1 <= addr2)
        || bool_decide (addr2 + size2 <= addr1)).

(** The entries older than slot [idx], oldest first: ring order from the
    head up to (not including) [idx]. *)
Definition older_entries (q : LoadStoreQueue.t) (idx : Z) : list LSQEntry.t :=
  omap (fun k =>
          mjoin (LoadStoreQueue.entries q
                   !! Z.to_nat ((LoadStoreQueue.head q + k)
                                `mod` LoadStoreQueue.capacity q)))
       (seqZ 0 ((idx - LoadStoreQueue.head q) `mod` LoadStoreQueue.capacity q)).

(** A store (or atomic) with a known address whose byte range meets
    [[addr, addr + size)]. *)
Definition overlapping_store (addr size : Z) (e : LSQEntry.t) : bool :=
  bool_decide (LSQEntry.op_type e = MemOpType.STORE
               \/ LSQEntry.op_type e = MemOpType.ATOMIC)
  && LSQEntry.address_valid e
  && match LSQEntry.address e with
     | Some a => overlaps a (LSQEntry.size e) addr size
     | None => false
     end.

(** The value program order gives the load [i]: the data of the newest
    earlier store overlapping the load's byte range, or memory at the load's
    address if there is none. *)
Definition architectural_value (w : Pipeline.t) (i : Instruction.t)
  : option Z :=
  idx ← Instruction.lsq_idx i;
  addr ← Instruction.address i;
  le ← mjoin (LoadStoreQueue.entries (Pipeline.lsq w) !! Z.to_nat idx);
  match last (filter (fun e => overlapping_store addr (LSQEntry.size le) e)
                     (older_entries (Pipeline.lsq w) idx)) with
  | Some st => LSQEntry.data st
  | None => Some (default 0 (Pipeline.memory w !! addr))
  end.

(** A program, as the sequence of its calls. *)
Inductive call :=
  | New (r : ref) (pc : Z) (instr_type : InstructionType.t)
        (dst_reg : option Z) (src_regs : list Z) (immediate : Z)
  | Issue (r : ref)
  | Execute (r : ref)
  | Commit
  | CycleStep (stream : list ref).

Definition state_of {A} (r : Res Pipeline.t A) : option Pipeline.t :=
  match r with
  | Ret _ w => Some w
  | Fail _ => None
  end.

Definition run_call (set_pop : gset Z -> Z) (c : call) (w : Pipeline.t)
  : option Pipeline.t :=
  match c with
  | New r pc ty dst src imm =>
      if decide (Pipeline.instrs w !! r = None)
      then Some (new_instruction r (Instruction.init pc ty dst src imm) w)
      else None
  | Issue r => state_of (Pipeline.issue_instruction r w)
  | Execute r => state_of (Pipeline.execute_instruction r w)
  | Commit => state_of (Pipeline.commit_instruction set_pop w)
  | CycleStep stream => state_of (Pipeline.cycle_step set_pop stream w)
  end.

Fixpoint run_calls (set_pop : gset Z -> Z) (cs : list call) (w : Pipeline.t)
  : option Pipeline.t :=
  match cs with
  | [] => Some w
  | c :: cs => w' ← run_call set_pop c w; run_calls set_pop cs w'
  end.

(** r2 := 5; a load from 0x1000 (reference 1) issues and speculates, reading
    0; a store of r2 to 0x1000 (reference 2) issues and executes; the load
    object is issued a second time; the ALU instruction, the load and the
    store commit in turn. *)
Definition load_issued_twice : list call :=
  [ New 0%nat 4096 InstructionType.ALU (Some 2) [] 5;
    New 1%nat 4100 InstructionType.LOAD (Some 3) [] 4096;
    New 2%nat 4104 InstructionType.STORE None [0; 2] 4096;
    Issue 0%nat; Execute 0%nat;
    Issue 1%nat; Execute 1%nat;
    Issue 2%nat; Execute 2%nat;
    Issue 1%nat;
    Commit; Commit; Commit ].

Definition w_load_issued_twice : Pipeline.t :=
  default (Pipeline.init 32 16)
          (run_calls pop_min load_issued_twice (Pipeline.init 32 16)).
Definition w_load_recommitted : Pipeline.t :=
  final (Pipeline.commit_instruction pop_min) w_load_issued_twice.

(** A program that hands the issue stage only objects without a sequence
    number: checked call by call along the run. *)
Definition unissued (w : Pipeline.t) (r : ref) : bool :=
  match Pipeline.instrs w !! r with
  | Some i => bool_decide (Instruction.seq_num i = None)
  | None => true
  end.

Definition issues_fresh (c : call) (w : Pipeline.t) : bool :=
  match c with
  | Issue r => unissued w r
  | CycleStep (r :: _) => unissued w r
  | _ => true
  end.

Fixpoint issues_once (set_pop : gset Z -> Z) (cs : list call)
    (w : Pipeline.t) : bool :=
  match cs with
  | [] => true
  | c :: cs =>
      issues_fresh c w
      && match run_call set_pop c w with
         | Some w' => issues_once set_pop cs w'
         | None => true
         end
  end.

(** r2 := 5; a store of r2 to 0x1000 (reference 1) and a load from 0x1000
    (reference 2) issue and execute in program order, each object issued
    once; the ALU instruction and the store commit. *)
Definition store_then_load : list call :=
  [ New 0%nat 4096 InstructionType.ALU (Some 2) [] 5;
    New 1%nat 4100 InstructionType.STORE None [0; 2] 4096;
    New 2%nat 4104 InstructionType.LOAD (Some 3) [] 4096;
    Issue 0%nat; Execute 0%nat;
    Issue 1%nat; Execute 1%nat;
    Issue 2%nat; Execute 2%nat;
    Commit; Commit ].

Definition w_store_then_load : Pipeline.t :=
  default (Pipeline.init 32 16)
          (run_calls pop_min store_then_load (Pipeline.init 32 16)).
Definition w_load_retired : Pipeline.t :=
  final (Pipeline.commit_instruction pop_min) w_store_then_load.

(** The entry of a store (or atomic) has its address. *)
Definition resolved (e : LSQEntry.t) : Prop :=
  LSQEntry.op_type e = MemOpType.STORE \/ LSQEntry.op_type e = MemOpType.ATOMIC ->
  LSQEntry.address_valid e = true.

(** ** The invariant of single-issue runs *)

(** What an older LSQ slot means for a load of [size] bytes at [addr]:
    [None], nothing (not a store, or a store elsewhere); [Some fwd], a
    conflict, where [fwd] is the data it can forward, if any (a store with
    an unknown address, or one that overlaps without covering the load,
    forwards nothing). *)
Definition entry_effect (addr size : Z) (o : option LSQEntry.t)
  : option (option Z) :=
  match o with
  | Some e =>
      if bool_decide (LSQEntry.op_type e = MemOpType.STORE
                      \/ LSQEntry.op_type e = MemOpType.ATOMIC)
      then
        if LSQEntry.address_valid e then
          match LSQEntry.address e with
          | Some a =>
              if overlaps a (LSQEntry.size e) addr size then
                if LSQEntry.data_valid e
                   && bool_decide (LSQEntry.address e = Some addr)
                   && bool_decide (LSQEntry.size e >= size)
                then Some (LSQEntry.data e)
                else Some None
              else None
          | None => None
          end
        else Some None
      else None
  | None => None
  end.

(** The newest conflict among the slots [l], oldest first. *)
Definition newest_conflict (addr size : Z) (l : list (option LSQEntry.t))
  : option (option Z) :=
  last (omap (fun o => entry_effect addr size o) l).

(** The locals of the dependency scan, read as the newest conflict so far. *)
Definition acc_repr (acc : LoadStoreQueue.scan_state)
    (nc : option (option Z)) : Prop :=
  match acc.1.1 with
  | None => acc.2 = None /\ nc = None
  | Some _ => nc = Some acc.2
  end.

(** A completed, not yet committed load holds the data of the newest
    conflicting older store, or memory's value when no older store
    conflicts. *)
Definition load_value_ok (q : LoadStoreQueue.t) (mem : gmap Z Z) (k : Z)
    (e : LSQEntry.t) (i : Instruction.t) : Prop :=
  LSQEntry.address_valid e = true
  /\ exists a v,
      LSQEntry.address e = Some a
      /\ Instruction.address i = Some a
      /\ Instruction.data i = Some v
      /\ match newest_conflict a 4
                 (take (Z.to_nat k) (LoadStoreQueue.entries q)) with
         | Some (Some d) => v = d
         | Some None => False
         | None => v = default 0 (mem !! a)
         end.

(** A store's entry is resolved, with the store's address and data, exactly
    when the store has executed. *)
Definition store_entry_ok (e : LSQEntry.t) (i : Instruction.t) : Prop :=
  if Instruction.completed i then
    LSQEntry.address_valid e = true
    /\ LSQEntry.data_valid e = true
    /\ exists a d,
        LSQEntry.address e = Some a /\ Instruction.address i = Some a
        /\ LSQEntry.data e = Some d /\ Instruction.data i = Some d
  else LSQEntry.address_valid e = false.

Definition entry_matches (q : LoadStoreQueue.t) (mem : gmap Z Z) (k : Z)
    (e : LSQEntry.t) (i : Instruction.t) : Prop :=
  match Instruction.instr_type i with
  | InstructionType.LOAD =>
      LSQEntry.op_type e = MemOpType.LOAD
      /\ (Instruction.completed i = true ->
          Instruction.committed i = false -> load_value_ok q mem k e i)
  | InstructionType.STORE =>
      LSQEntry.op_type e = MemOpType.STORE /\ store_entry_ok e i
  | _ => False
  end.

(** What holds of every instruction object. *)
Record obj_ok (q : LoadStoreQueue.t) (mem : gmap Z Z) (nxt : Z)
    (i : Instruction.t) : Prop := {
  ok_executed : Instruction.executed i = Instruction.completed i;
  ok_completed :
    Instruction.completed i = true -> Instruction.issued i = true;
  ok_issued :
    Instruction.issued i = true -> is_Some (Instruction.seq_num i);
  ok_committed :
    Instruction.committed i = true -> Instruction.completed i = true;
  ok_fresh :
    Instruction.seq_num i = None ->
    Instruction.lsq_idx i = None /\ Instruction.committed i = false;
  ok_seq : forall n, Instruction.seq_num i = Some n -> n < nxt;
  ok_mem_issued :
    Instruction.issued i = true ->
    Instruction.instr_type i = InstructionType.LOAD
    \/ Instruction.instr_type i = InstructionType.STORE ->
    is_Some (Instruction.lsq_idx i);
  ok_lsq : forall k,
    Instruction.lsq_idx i = Some k ->
    0 <= k < LoadStoreQueue.size q
    /\ exists e,
        LoadStoreQueue.entries q !! Z.to_nat k = Some (Some e)
        /\ Instruction.seq_num i = Some (LSQEntry.seq_num e)
        /\ entry_matches q mem k e i
}.

(** The LSQ of a run without squashes: slots [0 .. size) are occupied, in
    issue order, each by the entry of one instruction object. *)
Record lsq_ok (h : store) (q : LoadStoreQueue.t) : Prop := {
  lsq_head : LoadStoreQueue.head q = 0;
  lsq_len :
    Z.of_nat (length (LoadStoreQueue.entries q))
    = Z.max 0 (LoadStoreQueue.capacity q);
  lsq_size :
    0 <= LoadStoreQueue.size q <= Z.max 0 (LoadStoreQueue.capacity q);
  lsq_tail :
    LoadStoreQueue.tail q
    = if bool_decide (LoadStoreQueue.size q < LoadStoreQueue.capacity q)
      then LoadStoreQueue.size q else 0;
  lsq_entry : forall k,
    0 <= k < LoadStoreQueue.size q ->
    exists e,
      LoadStoreQueue.entries q !! Z.to_nat k = Some (Some e)
      /\ LSQEntry.size e = 4
      /\ (LSQEntry.address_valid e = true -> is_Some (LSQEntry.address e))
      /\ exists r i, h !! r = Some i /\ Instruction.lsq_idx i = Some k;
  lsq_sorted : forall k1 k2 e1 e2,
    0 <= k1 < k2 -> k2 < LoadStoreQueue.size q ->
    LoadStoreQueue.entries q !! Z.to_nat k1 = Some (Some e1) ->
    LoadStoreQueue.entries q !! Z.to_nat k2 = Some (Some e2) ->
    LSQEntry.seq_num e1 < LSQEntry.seq_num e2
}.

(** The ROB holds the references [rl], oldest first, in the ring slots from
    its head on: exactly the objects that have a sequence number and are
    not committed, in increasing sequence order. *)
Definition rob_slot (b : ReorderBuffer.t) (j : nat) : nat :=
  Z.to_nat ((ReorderBuffer.head b + Z.of_nat j) `mod` ReorderBuffer.capacity b).

Record rob_repr (b : ReorderBuffer.t) (rl : list ref) : Prop := {
  rob_len :
    Z.of_nat (length (ReorderBuffer.entries b))
    = Z.max 0 (ReorderBuffer.capacity b);
  rob_head :
    0 < ReorderBuffer.capacity b ->
    0 <= ReorderBuffer.head b < ReorderBuffer.capacity b;
  rob_size : ReorderBuffer.size b = Z.of_nat (length rl);
  rob_bound : ReorderBuffer.size b <= Z.max 0 (ReorderBuffer.capacity b);
  rob_tail :
    0 < ReorderBuffer.capacity b ->
    ReorderBuffer.tail b
    = (ReorderBuffer.head b + ReorderBuffer.size b)
      `mod` ReorderBuffer.capacity b;
  rob_slots : forall j r,
    rl !! j = Some r ->
    ReorderBuffer.entries b !! rob_slot b j = Some (Some r)
}.

Record rob_ok (h : store) (b : ReorderBuffer.t) (rl : list ref) : Prop := {
  rob_ring : rob_repr b rl;
  rob_members : forall r,
    r ∈ rl <->
    exists i, h !! r = Some i
              /\ is_Some (Instruction.seq_num i)
              /\ Instruction.committed i = false;
  rob_sorted : forall j1 j2 r1 r2 i1 i2 n1 n2,
    (j1 < j2)%nat ->
    rl !! j1 = Some r1 -> rl !! j2 = Some r2 ->
    h !! r1 = Some i1 -> h !! r2 = Some i2 ->
    Instruction.seq_num i1 = Some n1 -> Instruction.seq_num i2 = Some n2 ->
    n1 < n2
}.

(** The buffer after [allocate] has stored [r] at the tail, and after
    [commit_head] has popped the head. *)
Definition rob_push (b : ReorderBuffer.t) (r : ref) : ReorderBuffer.t :=
  ReorderBuffer.with_size (ReorderBuffer.size b + 1)
    (ReorderBuffer.with_tail
       ((ReorderBuffer.tail b + 1) `mod` ReorderBuffer.capacity b)
       (ReorderBuffer.with_entries
          (<[Z.to_nat (ReorderBuffer.tail b) := Some r]>
             (ReorderBuffer.entries b)) b)).

Definition rob_pop (b : ReorderBuffer.t) : ReorderBuffer.t :=
  ReorderBuffer.with_size (ReorderBuffer.size b - 1)
    (ReorderBuffer.with_head
       ((ReorderBuffer.head b + 1) `mod` ReorderBuffer.capacity b)
       (ReorderBuffer.with_entries
          (<[Z.to_nat (ReorderBuffer.head b) := None]>
             (ReorderBuffer.entries b)) b)).

(** What the ROB and the LSQ know of an object: its sequence number, its
    LSQ slot and whether it is committed. *)
Definition obj_key (i : Instruction.t) : option Z * option Z * bool :=
  (Instruction.seq_num i, Instruction.lsq_idx i, Instruction.committed i).

Definition heap_key (h : store) (r : ref) : option (option Z * option Z * bool) :=
  obj_key <$> (h !! r).

(** No two objects share a sequence number. *)
Definition seq_inj (h : store) : Prop :=
  forall r1 r2 i1 i2 n,
    h !! r1 = Some i1 -> h !! r2 = Some i2 ->
    Instruction.seq_num i1 = Some n -> Instruction.seq_num i2 = Some n ->
    r1 = r2.

Definition inv (h : store) (b : ReorderBuffer.t) (q : LoadStoreQueue.t)
    (mem : gmap Z Z) (nxt : Z) : Prop :=
  (forall r i, h !! r = Some i -> obj_ok q mem nxt i)
  /\ lsq_ok h q
  /\ (exists rl, rob_ok h b rl)
  /\ seq_inj h.

Definition Inv (w : Pipeline.t) : Prop :=
  inv (Pipeline.instrs w) (Pipeline.rob w) (Pipeline.lsq w)
      (Pipeline.memory w) (Pipeline.next_seq_num w).

(** [keeps f m]: whenever [m] returns, it has not changed the component [f]
    of the state; [pure m]: it has not changed the state at all. *)
Definition keeps {S A B} (f : S -> B) (m : M S A) : Prop :=
  forall s a s', m s = Ret a s' -> f s' = f s.

Abbreviation pure := (keeps id).

(** * Reasoning about method calls *)

Lemma bind_Ret {S A B} (m : M S A) (k : A -> M S B) (s s' : S) (b : B) :
  bind m k s = Ret b s' <-> exists a s1, m s = Ret a s1 /\ k a s1 = Ret b s'.
Proof.
  unfold bind. destruct (m s) as [a s1|f]; split.
  - intros H. by exists a, s1.
  - by intros (? & ? & [= -> ->] & ?).
  - done.
  - by intros (? & ? & ? & ?).
Qed.

Lemma bind_step {S A B} (m : M S A) (k : A -> M S B) (s s1 : S) (a : A) :
  m s = Ret a s1 -> bind m k s = k a s1.
Proof. unfold bind. by intros ->. Qed.

Section keeps_rules.
Context {S B : Type} (f : S -> B).

Lemma keeps_ret {A} (a : A) : keeps f (ret a).
Proof. by intros s ? ? [= <- <-]. Qed.

Lemma keeps_raise {A} e : keeps f (raise e : M S A).
Proof. by intros s ? ?. Qed.

Lemma keeps_get : keeps f get.
Proof. by intros s ? ? [= <- <-]. Qed.

Lemma keeps_gets {A} (g : S -> A) : keeps f (gets g).
Proof. by intros s ? ? [= <- <-]. Qed.

Lemma keeps_py_mod a b : keeps f (py_mod a b).
Proof.
  unfold py_mod. case_bool_decide; [apply keeps_raise | apply keeps_ret].
Qed.

Lemma keeps_py_ge a b : keeps f (py_ge a b).
Proof.
  unfold py_ge. destruct a, b; try apply keeps_raise. apply keeps_ret.
Qed.

Lemma keeps_bind {A C} (m : M S A) (k : A -> M S C) :
  keeps f m -> (forall a, keeps f (k a)) -> keeps f (bind m k).
Proof.
  intros Hm Hk s b s' (a & s1 & H1 & H2)%bind_Ret.
  rewrite (Hk _ _ _ _ H2). by eapply Hm.
Qed.

Lemma keeps_modify (g : S -> S) : (forall s, f (g s) = f s) -> keeps f (modify g).
Proof. intros H s ? ? [= <- <-]. apply H. Qed.

Lemma pure_keeps {A} (m : M S A) : pure m -> keeps f m.
Proof. intros H s a s' E. apply H in E. unfold id in E. by subst. Qed.
End keeps_rules.

Lemma keeps_zoom {S T A B} (f : T -> B) (proj : T -> S) (upd : S -> T -> T)
    (m : M S A) :
  (forall s t, f (upd s t) = f t) -> keeps f (zoom proj upd m).
Proof.
  intros H t a t'. unfold zoom.
  destruct (m (proj t)); [|done]. intros [= <- <-]. apply H.
Qed.

Lemma pure_zoom {S T A} (proj : T -> S) (upd : S -> T -> T) (m : M S A) :
  pure m -> (forall t, upd (proj t) t = t) -> pure (zoom proj upd m).
Proof.
  intros Hm Hid t a t'. unfold zoom.
  destruct (m (proj t)) as [a' s'|] eqn:E; [|done].
  intros [= <- <-]. apply Hm in E. simpl in E. unfold id in *.
  by rewrite E, Hid.
Qed.

Lemma pure_run {S A} (m : M S A) (s s' : S) (a : A) :
  pure m -> m s = Ret a s' -> s' = s.
Proof. intros H E. exact (H _ _ _ E). Qed.

Create HintDb frame discriminated.
#[global] Hint Resolve keeps_ret keeps_raise keeps_get keeps_gets keeps_py_mod
  keeps_py_ge keeps_bind : frame.
#[global] Hint Extern 3 (keeps _ (modify _)) =>
  apply keeps_modify; intros ?; reflexivity : frame.
#[global] Hint Extern 4 (keeps _ (match ?x with _ => _ end)) =>
  destruct x : frame.

(** Step through [H : (x <- m ;; k) s = Ret b s']. *)
Ltac inv_bind H :=
  let a := fresh "a" in
  let s := fresh "s" in
  let E := fresh "E" in
  apply bind_Ret in H as (a & s & E & H).

(** Take apart every hypothesis that says a composed call returned. *)
Ltac minv_step :=
  match goal with
  | H : bind _ _ _ = Ret _ _ |- _ => inv_bind H
  | H : Fail _ = Ret _ _ |- _ => discriminate H
  | H : raise _ _ = Ret _ _ |- _ => discriminate H
  | H : Ret _ _ = Ret _ _ |- _ =>
      first [injection H as ? ? | injection H as ? | clear H]; subst
  | H : ret _ _ = Ret _ _ |- _ => unfold ret in H
  | H : get _ = Ret _ _ |- _ => unfold get in H
  | H : gets _ _ = Ret _ _ |- _ => unfold gets in H
  | H : modify _ _ = Ret _ _ |- _ => unfold modify in H
  | H : py_mod _ _ _ = Ret _ _ |- _ =>
      unfold py_mod in H; case_bool_decide
  | H : (match ?x with _ => _ end) _ = Ret _ _ |- _ => destruct x eqn:?
  | H : (let (_, _) := ?x in _) _ = Ret _ _ |- _ => destruct x eqn:?
  end.
Ltac minv := repeat minv_step.

(** Close a conjunction of closed equations by evaluation. *)
Ltac by_evaluation := repeat apply conj; vm_compute; reflexivity.

(** * The store-set predictor *)

Section predictor.
Import StoreSetPredictor.

Lemma get_ssit_index_Ret (pc : Z) (p p' : t) (idx : Z) :
  _get_ssit_index pc p = Ret idx p' <->
  ssit_size p <> 0 /\ idx = Z.shiftr pc 2 `mod` ssit_size p /\ p' = p.
Proof.
  unfold _get_ssit_index, py_mod, bind, gets, ret, raise.
  case_bool_decide; split.
  - done.
  - by intros (? & _).
  - by intros [= <- <-].
  - by intros (_ & -> & ->).
Qed.

Lemma get_ssit_index_same_size (pc : Z) (p q : t) (idx : Z) :
  _get_ssit_index pc p = Ret idx p ->
  ssit_size q = ssit_size p ->
  _get_ssit_index pc q = Ret idx q.
Proof.
  intros (Hnz & -> & _)%get_ssit_index_Ret Hsz.
  apply get_ssit_index_Ret. rewrite Hsz. done.
Qed.

(** C4, as the code has it: a load whose SSIT entry maps to a store set
    with an in-flight store in the LFST is told to wait for that store's
    sequence number exactly when the load's confidence counter is below 2;
    with confidence 2 or 3 [predict_load] answers (true, None) although the
    set has an in-flight store. *)
Theorem predict_load_in_flight_store (p : t) (pc idx sid seq : Z) :
  _get_ssit_index pc p = Ret idx p ->
  ssit p !! idx = Some sid ->
  lfst p !! sid = Some seq ->
  exists p',
    predict_load pc p =
      Ret (if bool_decide (default 2 (confidence p !! pc) < 2)
           then (false, Some seq) else (true, None)) p'.
Proof.
  intros Hidx Hssit Hlfst.
  set (p1 := with_predictions (predictions p + 1) p).
  assert (H1 : _get_ssit_index pc p1 = Ret idx p1)
    by (by eapply get_ssit_index_same_size).
  unfold predict_load.
  rewrite (bind_step _ _ p p1 tt) by done.
  rewrite (bind_step _ _ _ _ _ H1).
  unfold bind at 1, gets at 1. simpl. rewrite Hssit.
  unfold confidence_getitem, bind, get, gets, put, ret. simpl.
  destruct (confidence p !! pc) as [c|] eqn:Hc; simpl.
  - destruct (decide (c >= 2)).
    + rewrite bool_decide_eq_true_2, bool_decide_eq_false_2 by lia. eauto.
    + rewrite bool_decide_eq_false_2, bool_decide_eq_true_2 by lia.
      subst p1. simpl. rewrite Hlfst. eauto.
  - eauto.
Qed.

Lemma predict_load_in_flight_store_witness :
  exists p',
    predict_load 772 (with_confidence {[772 := 1]}
                       (with_lfst {[0 := 1]}
                         (with_ssit {[193 := 0]} (init 256 64)))) =
      Ret (false, Some 1) p'.
Proof.
  edestruct (predict_load_in_flight_store
               (with_confidence {[772 := 1]}
                 (with_lfst {[0 := 1]}
                   (with_ssit {[193 := 0]} (init 256 64))))
               772 193 0 1) as [p' H]; [vm_compute; reflexivity ..|].
  exists p'. rewrite H. vm_compute. reflexivity.
Defined.

(** C4 refuted as stated: after a violation has put load 0x304 and store
    0x300 into one set, one correct speculation brings the load's
    confidence back to 2; with store 0x300 registered in the LFST the
    predictor still answers (true, None). *)
Lemma predict_load_in_flight_store_counterexample :
  (report_violation pop_min 772 768;;
   report_correct_speculation 772;;
   register_store 768 1) (init 256 64) = Ret tt p_confident
  /\ _get_ssit_index 772 p_confident = Ret 193 p_confident
  /\ ssit p_confident !! 193 = Some 0
  /\ lfst p_confident !! 0 = Some 1
  /\ predict_load 772 p_confident
     = Ret (true, None) (final (predict_load 772) p_confident).
Proof. by_evaluation. Qed.

Lemma register_store_Ret (p : t) (pc seq idx : Z) :
  _get_ssit_index pc p = Ret idx p ->
  register_store pc seq p =
    Ret tt (match ssit p !! idx with
            | Some sid => with_lfst (<[sid:=seq]> (lfst p)) p
            | None => p
            end).
Proof.
  intros Hidx. unfold register_store.
  rewrite (bind_step _ _ _ _ _ Hidx).
  unfold bind, gets. by destruct (ssit p !! idx).
Qed.

Lemma clear_store_Ret (p : t) (pc idx : Z) :
  _get_ssit_index pc p = Ret idx p ->
  clear_store pc p =
    Ret tt (match ssit p !! idx with
            | Some sid =>
                if bool_decide (is_Some (lfst p !! sid))
                then with_lfst (delete sid (lfst p)) p else p
            | None => p
            end).
Proof.
  intros Hidx. unfold clear_store.
  rewrite (bind_step _ _ _ _ _ Hidx).
  unfold bind, gets. destruct (ssit p !! idx); [|done].
  by case_bool_decide.
Qed.

(** C7, as the code has it: [register_store] followed by [clear_store] of
    the same PC removes the LFST entry of the PC's store set, whatever it
    held before; the LFST is back to its earlier state exactly when the PC
    has no set or its set had no LFST entry before the pair. *)
Theorem register_then_clear (p : t) (pc seq idx : Z) :
  _get_ssit_index pc p = Ret idx p ->
  exists p',
    (register_store pc seq;; clear_store pc) p = Ret tt p'
    /\ lfst p' = match ssit p !! idx with
                 | Some sid => delete sid (lfst p)
                 | None => lfst p
                 end
    /\ ((forall sid, ssit p !! idx = Some sid -> lfst p !! sid = None) ->
        lfst p' = lfst p).
Proof.
  intros Hidx.
  unfold bind at 1. rewrite (register_store_Ret _ _ _ _ Hidx).
  destruct (ssit p !! idx) as [sid|] eqn:Hs.
  - set (p1 := with_lfst (<[sid:=seq]> (lfst p)) p).
    assert (H1 : _get_ssit_index pc p1 = Ret idx p1)
      by (by eapply get_ssit_index_same_size).
    rewrite (clear_store_Ret _ _ _ H1). subst p1. simpl. rewrite Hs.
    rewrite lookup_insert_eq, bool_decide_eq_true_2 by eauto.
    eexists; split; [done|]. simpl. rewrite delete_insert_eq.
    split; [done|]. intros H. by apply delete_id, H.
  - rewrite (clear_store_Ret _ _ _ Hidx), Hs. eauto.
Qed.

Lemma register_then_clear_witness :
  exists p',
    (register_store 768 6;; clear_store 768)
      (with_ssit {[192 := 0]} (init 256 64)) = Ret tt p'
    /\ lfst p' = ∅.
Proof.
  edestruct (register_then_clear (with_ssit {[192 := 0]} (init 256 64))
               768 6 192) as (p' & Hrun & _ & Hsame);
    [vm_compute; reflexivity|].
  exists p'. split; [exact Hrun|].
  rewrite Hsame; [reflexivity|]. intros sid _. apply lookup_empty.
Defined.

(** C7 refuted as stated: store 0x300 is in a set and already registered
    with sequence number 5; registering it again with 6 and clearing it
    empties the LFST instead of restoring the entry for 5. *)
Lemma register_then_clear_counterexample :
  (report_violation pop_min 772 768;; register_store 768 5) (init 256 64)
    = Ret tt p_registered
  /\ (register_store 768 6;; clear_store 768) p_registered
     = Ret tt p_cleared
  /\ lfst p_registered = {[0 := 5]}
  /\ lfst p_cleared = ∅
  /\ lfst p_cleared <> lfst p_registered.
Proof.
  assert (H1 : lfst p_registered = {[0 := 5]}) by (vm_compute; reflexivity).
  assert (H2 : lfst p_cleared = ∅) by (vm_compute; reflexivity).
  split; [vm_compute; reflexivity|].
  split; [vm_compute; reflexivity|].
  repeat apply conj; [done | done |].
  rewrite H1, H2. intros H. apply (f_equal (fun m => m !! 0)) in H.
  by rewrite lookup_empty, lookup_singleton_eq in H.
Qed.

(** C8 fails on the code: two violations create the sets 0 (PCs 0x1000,
    0x1008) and 1 (PCs 0x2004, 0x200c); store 0x200c is registered, so the
    LFST holds an entry for set 1; a violation between load 0x1000 and
    store 0x200c merges set 1 into set 0.  Afterwards no SSIT index maps to
    set 1, its LFST entry is still there, and the id is back in the free
    pool. *)
Theorem merge_leaves_dangling_lfst :
  (report_violation pop_min 4096 4104;;
   report_violation pop_min 8196 8204;;
   register_store 8204 7;;
   report_violation pop_min 4096 8204) (init 256 64) = Ret tt p_merged
  /\ lfst p_merged !! 1 = Some 7
  /\ map_Forall (fun _ sid => sid <> 1) (ssit p_merged)
  /\ 1 ∈ free_store_sets p_merged.
Proof.
  split; [vm_compute; reflexivity|].
  split; [vm_compute; reflexivity|].
  split; apply (bool_decide_unpack _); vm_compute; exact I.
Qed.
End predictor.

(** * Atomic read-modify-write *)

(** C9: a CAS succeeds iff [expected] is given and equals the memory value;
    on success [new_value] becomes the write value, on failure it keeps what
    it held; the memory value is returned either way. *)
Theorem cas_execute (a : AtomicOperation.t) (v w : Z) (e : option Z) :
  AtomicOperation.op_type a = "CAS"%string ->
  exists a',
    AtomicOperation.execute v w e a = Ret (bool_decide (e = Some v), v) a'
    /\ AtomicOperation.new_value a' =
         (if bool_decide (e = Some v) then Some w
          else AtomicOperation.new_value a)
    /\ AtomicOperation.old_value a' = Some v.
Proof.
  intros Hop. unfold AtomicOperation.execute, bind, modify, gets, ret. simpl.
  rewrite Hop. simpl.
  destruct e as [e|]; simpl.
  - destruct (decide (v = e)) as [->|Hne].
    + rewrite !bool_decide_eq_true_2 by done. eauto.
    + rewrite (bool_decide_eq_false_2 (v = e)) by done.
      rewrite (bool_decide_eq_false_2 (Some e = Some v)) by congruence. eauto.
  - eauto.
Qed.

Lemma cas_execute_witness :
  exists a',
    AtomicOperation.execute 5 7 (Some 5) (AtomicOperation.init "CAS" 4096 1)
      = Ret (true, 5) a'
    /\ AtomicOperation.new_value a' = Some 7
    /\ AtomicOperation.old_value a' = Some 5.
Proof.
  apply (cas_execute (AtomicOperation.init "CAS" 4096 1) 5 7 (Some 5)).
  reflexivity.
Defined.


(** * The load/store queue *)

Section lsq.
Import LoadStoreQueue.

Lemma pure_getitem (idx : Z) : pure (getitem idx).
Proof. unfold getitem. auto with frame. Qed.

Lemma pure_addresses_overlap a1 s1 a2 s2 : pure (_addresses_overlap a1 s1 a2 s2).
Proof. unfold _addresses_overlap. auto with frame. Qed.

#[local] Hint Resolve pure_getitem pure_addresses_overlap : frame.

Lemma pure_scan_body la ls idx acc : pure (scan_body la ls idx acc).
Proof. unfold scan_body. auto 20 with frame. Qed.

#[local] Hint Resolve pure_scan_body : frame.

Lemma pure_scan fuel load_idx la ls idx acc :
  pure (scan fuel load_idx la ls idx acc).
Proof.
  revert idx acc. induction fuel as [|fuel IH]; intros idx acc; simpl;
    case_bool_decide; auto 10 with frame.
Qed.

#[local] Hint Resolve pure_scan : frame.

Lemma pure_check_dependency (load_idx : Z) : pure (check_dependency load_idx).
Proof. unfold check_dependency. auto 20 with frame. Qed.

Lemma py_index_in_range (len i : Z) :
  0 <= i < len -> py_index len i = Some (Z.to_nat i).
Proof. intros H. unfold py_index. by rewrite bool_decide_eq_true_2. Qed.

Lemma getitem_in_range (q : t) (idx : Z) :
  Z.of_nat (length (entries q)) = capacity q ->
  0 <= idx < capacity q ->
  exists e, getitem idx q = Ret e q /\ entries q !! Z.to_nat idx = Some e.
Proof.
  intros Hlen Hidx. unfold getitem, bind, get, py_getitem.
  rewrite py_index_in_range by lia. simpl.
  destruct (lookup_lt_is_Some_2 (entries q) (Z.to_nat idx)) as [e He]; [lia|].
  rewrite He. by exists e.
Qed.

Lemma py_getitem_lookup {A} (l : list A) (idx : Z) (x : A) :
  0 <= idx -> l !! Z.to_nat idx = Some x -> py_getitem l idx = Some x.
Proof.
  intros H0 Hx. unfold py_getitem.
  rewrite py_index_in_range; [done|].
  apply lookup_lt_Some in Hx. lia.
Qed.

Lemma py_setitem_lookup {A} (l : list A) (idx : Z) (x y : A) :
  0 <= idx -> l !! Z.to_nat idx = Some x ->
  py_setitem l idx y = Some (<[Z.to_nat idx := y]> l).
Proof.
  intros H0 Hx. unfold py_setitem.
  rewrite py_index_in_range; [done|].
  apply lookup_lt_Some in Hx. lia.
Qed.

Lemma update_at_Ret (q : t) (idx : Z) (f : LSQEntry.t -> LSQEntry.t)
    (e : LSQEntry.t) :
  0 <= idx < capacity q ->
  entries q !! Z.to_nat idx = Some (Some e) ->
  update_at idx f q
  = Ret tt (with_entries (<[Z.to_nat idx := Some (f e)]> (entries q)) q).
Proof.
  intros Hidx He. unfold update_at, getitem, setitem.
  unfold bind, gets, get, modify. simpl.
  rewrite bool_decide_eq_true_2 by done.
  rewrite (py_getitem_lookup _ _ _ (proj1 Hidx) He). simpl.
  by rewrite (py_setitem_lookup _ _ _ _ (proj1 Hidx) He).
Qed.

Lemma scan_body_total (q : t) (la : Z) (ls idx : Z) (acc : scan_state) :
  lsq_wf q -> 0 <= idx < capacity q ->
  exists acc', scan_body (Some la) ls idx acc q = Ret acc' q.
Proof.
  intros (Hcap & Hlen & Hhd & Haddr) Hidx. unfold scan_body.
  destruct (getitem_in_range q idx Hlen Hidx) as (e & Hg & He).
  rewrite (bind_step _ _ _ _ _ Hg).
  destruct e as [e|]; [|by eexists].
  case_bool_decide; [|by eexists].
  destruct (LSQEntry.address_valid e) eqn:Hv; [|by eexists].
  destruct (Haddr _ _ He Hv) as [a ->]. simpl.
  unfold bind, ret. simpl.
  repeat (match goal with |- context [if ?b then _ else _] => destruct b end);
    by eexists.
Qed.

(** Steps from [idx] forward to [load_idx] around the ring. *)
Lemma scan_total (q : t) (la ls load_idx : Z) (fuel : nat) :
  lsq_wf q -> 0 <= load_idx < capacity q ->
  forall (idx : Z) (acc : scan_state),
    0 <= idx < capacity q ->
    ((load_idx - idx) `mod` capacity q < Z.of_nat fuel) ->
    exists acc', scan fuel load_idx (Some la) ls idx acc q = Ret acc' q.
Proof.
  intros Hwf Hload. induction fuel as [|fuel IH]; intros idx acc Hidx Hd.
  - pose proof (Z.mod_pos_bound (load_idx - idx) (capacity q)). lia.
  - simpl. case_bool_decide as Heq; [by eexists|].
    destruct (scan_body_total q la ls idx acc Hwf Hidx) as [acc' Hb].
    rewrite (bind_step _ _ _ _ _ Hb).
    unfold bind at 1, gets at 1. unfold py_mod.
    rewrite bool_decide_eq_false_2 by (destruct Hwf; lia).
    unfold bind at 1, ret at 1.
    apply IH; [apply Z.mod_pos_bound; lia|].
    assert (Hstep : (load_idx - (idx + 1) `mod` capacity q) `mod` capacity q
                    = (load_idx - idx) `mod` capacity q - 1).
    { destruct (decide (idx + 1 = capacity q)) as [E|E].
      - rewrite E, Z.mod_same by lia.
        rewrite Z.sub_0_r, (Z.mod_small load_idx) by lia.
        replace (load_idx - idx) with (load_idx + 1 - capacity q) by lia.
        rewrite <- (Z.mod_add _ 1) by lia.
        rewrite Z.mod_small by lia. lia.
      - rewrite (Z.mod_small (idx + 1)) by lia.
        destruct (decide (idx < load_idx)).
        + rewrite !Z.mod_small by lia. lia.
        + rewrite <- (Z.mod_add (load_idx - (idx + 1)) 1) by lia.
          rewrite <- (Z.mod_add (load_idx - idx) 1) by lia.
          rewrite !Z.mod_small by lia. lia. }
    lia.
Qed.

Lemma check_dependency_total (q : t) (load_idx : Z) :
  lsq_wf q -> 0 <= load_idx < capacity q ->
  exists r, check_dependency load_idx q = Ret r q.
Proof.
  intros Hwf Hload. pose proof Hwf as (Hcap & Hlen & Hhd & Haddr).
  unfold check_dependency.
  destruct (getitem_in_range q load_idx Hlen Hload) as (e & Hg & He).
  rewrite (bind_step _ _ _ _ _ Hg).
  destruct e as [le|]; [|by eexists].
  destruct (LSQEntry.address_valid le) eqn:Hv; simpl; [|by eexists].
  destruct (Haddr _ _ He Hv) as [a ->].
  unfold bind at 1, get at 1.
  destruct (scan_total q a (LSQEntry.size le) load_idx (lap q) Hwf Hload
              (head q) (None, false, None) Hhd) as [[[c f] d] Hs].
  { unfold lap. pose proof (Z.mod_pos_bound (load_idx - head q) (capacity q)).
    lia. }
  rewrite (bind_step _ _ _ _ _ Hs). by eexists.
Qed.
End lsq.

(** C10: [check_dependency] never changes the queue (entries, head, tail and
    size are what they were), and on a well-formed queue it returns for
    every index inside the ring. *)
Theorem check_dependency_read_only (q : LoadStoreQueue.t) (load_idx : Z) :
  (forall r q', LoadStoreQueue.check_dependency load_idx q = Ret r q' -> q' = q)
  /\ (lsq_wf q -> 0 <= load_idx < LoadStoreQueue.capacity q ->
      exists r, LoadStoreQueue.check_dependency load_idx q = Ret r q).
Proof.
  split.
  - intros r q' H. exact (pure_run _ _ _ _ (pure_check_dependency load_idx) H).
  - apply check_dependency_total.
Qed.

Lemma check_dependency_read_only_witness :
  lsq_wf q_store_load
  /\ exists r, LoadStoreQueue.check_dependency 1 q_store_load
               = Ret r q_store_load.
Proof.
  assert (Hwf : lsq_wf q_store_load).
  { repeat apply conj; try (vm_compute; congruence).
    assert (HF : Forall (fun o : option LSQEntry.t =>
                           match o with
                           | Some e => LSQEntry.address_valid e = true ->
                                       is_Some (LSQEntry.address e)
                           | None => True
                           end) (LoadStoreQueue.entries q_store_load)).
    { vm_compute.
      repeat (apply Forall_cons; split;
              [first [exact I | intros _; eexists; reflexivity]|]).
      apply Forall_nil_2. }
    intros i e Hi Hv. exact (Forall_lookup_1 _ _ _ _ HF Hi Hv). }
  split; [exact Hwf|].
  apply (proj2 (check_dependency_read_only q_store_load 1)); [exact Hwf|].
  vm_compute. split; congruence.
Defined.

(** * The pipeline *)

Section pipeline.
Import Pipeline.

#[local] Hint Extern 2 (keeps _ (in_lsq _)) =>
  apply keeps_zoom; intros ? ?; reflexivity : frame.
#[local] Hint Extern 2 (keeps _ (in_rob _)) =>
  apply keeps_zoom; intros ? ?; reflexivity : frame.
#[local] Hint Extern 2 (keeps _ (in_predictor _)) =>
  apply keeps_zoom; intros ? ?; reflexivity : frame.

Lemma keeps_memory_update r f : keeps memory (update r f).
Proof. unfold update, deref. auto with frame. Qed.

Lemma keeps_memory_read_reg r : keeps memory (read_reg r).
Proof. unfold read_reg. auto with frame. Qed.

Lemma keeps_memory_write_dst d v : keeps memory (write_dst d v).
Proof. unfold write_dst, write_reg. auto 10 with frame. Qed.

#[local] Hint Resolve keeps_memory_update keeps_memory_read_reg
  keeps_memory_write_dst : frame.

Lemma keeps_memory_issue_instruction r : keeps memory (issue_instruction r).
Proof. unfold issue_instruction, deref. auto 30 with frame. Qed.

Lemma keeps_memory_execute_load r : keeps memory (_execute_load r).
Proof.
  unfold _execute_load, check_dependency, deref. auto 40 with frame.
Qed.

Lemma keeps_memory_execute_store r : keeps memory (_execute_store r).
Proof. unfold _execute_store, deref. auto 40 with frame. Qed.

Lemma keeps_memory_sum_regs l acc : keeps memory (sum_regs l acc).
Proof. revert acc. induction l; simpl; auto with frame. Qed.

#[local] Hint Resolve keeps_memory_execute_load keeps_memory_execute_store
  keeps_memory_sum_regs : frame.

Lemma keeps_memory_execute_instruction r : keeps memory (execute_instruction r).
Proof. unfold execute_instruction, deref. auto 40 with frame. Qed.

Lemma keeps_memory_validate_load r : keeps memory (_validate_load r).
Proof. unfold _validate_load, deref. auto 40 with frame. Qed.

Lemma keeps_memory_recover set_pop r :
  keeps memory (_recover_from_violation set_pop r).
Proof. unfold _recover_from_violation, deref. auto 40 with frame. Qed.

(** What [ReorderBuffer.commit_head] does when it returns. *)
Lemma rob_commit_head_Ret (s s' : ReorderBuffer.st) (c : option ref) :
  ReorderBuffer.commit_head s = Ret c s' ->
  match c with
  | None => s' = s
  | Some r =>
      exists i l,
        py_getitem (ReorderBuffer.entries s.2) (ReorderBuffer.head s.2)
          = Some (Some r)
        /\ s.1 !! r = Some i
        /\ Instruction.completed i = true
        /\ py_setitem (ReorderBuffer.entries s.2) (ReorderBuffer.head s.2) None
             = Some l
        /\ ReorderBuffer.capacity s.2 <> 0
        /\ ReorderBuffer.size s.2 <> 0
        /\ s' = (<[r := Instruction.with_committed i]> s.1,
                 ReorderBuffer.with_size (ReorderBuffer.size s.2 - 1)
                   (ReorderBuffer.with_head
                      ((ReorderBuffer.head s.2 + 1)
                         `mod` ReorderBuffer.capacity s.2)
                      (ReorderBuffer.with_entries l s.2)))
  end.
Proof.
  destruct s as [h b]. intros H.
  unfold ReorderBuffer.commit_head, ReorderBuffer.is_empty, ReorderBuffer.rob,
    ReorderBuffer.getitem, ReorderBuffer.deref, ReorderBuffer.update,
    ReorderBuffer.setitem, ReorderBuffer.modify_rob, ReorderBuffer.rob,
    ReorderBuffer.deref in H.
  minv; simpl in *; try done.
  simplify_eq. apply bool_decide_eq_false in Heqb.
  eexists _, _. repeat split; done.
Qed.

Lemma with_lsq_id (w : t) : with_lsq (lsq w) w = w.
Proof. by destruct w. Qed.

Lemma pure_in_lsq {A} (m : M LoadStoreQueue.t A) : pure m -> pure (in_lsq m).
Proof. intros H. apply pure_zoom; [done | apply with_lsq_id]. Qed.

Lemma pure_deref r : pure (deref r).
Proof. unfold deref. auto with frame. Qed.

Lemma pure_validate_load r : pure (_validate_load r).
Proof.
  unfold _validate_load.
  pose proof pure_deref. pose proof pure_check_dependency.
  pose proof (@pure_in_lsq (bool * option Z * option Z)).
  auto 20 with frame.
Qed.

(** What [commit_instruction] does when it returns: [w1] is the pipeline
    after the ROB has popped its head. *)
Lemma commit_instruction_Ret set_pop (w w' : t) (c : option ref) :
  commit_instruction set_pop w = Ret c w' ->
  exists c0 s1,
    ReorderBuffer.commit_head (instrs w, rob w) = Ret c0 s1
    /\ let w1 := with_rob s1.2 (with_instrs s1.1 w) in
       match c0 with
       | None => c = None /\ w' = w1
       | Some r =>
           exists i, instrs w1 !! r = Some i /\
           if bool_decide (Instruction.instr_type i = InstructionType.LOAD)
              && Instruction.speculative i
           then
             exists v, _validate_load r w1 = Ret v w1 /\
               if v then
                 c = None
                 /\ _recover_from_violation set_pop r
                      (with_speculation_violations
                         (speculation_violations w1 + 1) w1) = Ret tt w'
               else
                 c = Some r /\ exists p',
                   StoreSetPredictor.report_correct_speculation
                     (Instruction.pc i) (predictor w1) = Ret tt p'
                   /\ w' = with_instructions_committed
                             (instructions_committed w1 + 1)
                             (with_predictor p' w1)
           else if decide (Instruction.instr_type i = InstructionType.STORE)
           then
             c = Some r /\ exists a d p',
               Instruction.address i = Some a
               /\ Instruction.data i = Some d
               /\ StoreSetPredictor.clear_store (Instruction.pc i)
                    (predictor w1) = Ret tt p'
               /\ w' = with_instructions_committed
                         (instructions_committed w1 + 1)
                         (with_predictor p'
                            (with_memory (<[a:=d]> (memory w1)) w1))
           else
             c = Some r
             /\ w' = with_instructions_committed
                       (instructions_committed w1 + 1) w1
       end.
Proof.
  intros H. unfold commit_instruction in H.
  inv_bind H. unfold in_rob, zoom in E.
  destruct (ReorderBuffer.commit_head (instrs w, rob w)) as [c0 s1|] eqn:Hc;
    [|done].
  injection E as <- <-. exists c0, s1. split; [done|]. simpl.
  destruct c0 as [r|]; [|by minv].
  inv_bind H. rename a into i.
  assert (instrs (with_rob s1.2 (with_instrs s1.1 w)) !! r = Some i
          /\ s = with_rob s1.2 (with_instrs s1.1 w)) as [Hi ->].
  { clear H. unfold deref in E. by minv. }
  exists i. split; [done|]. clear E.
  set (w1 := with_rob s1.2 (with_instrs s1.1 w)) in *.
  inv_bind H. rename a into v.
  destruct (bool_decide (Instruction.instr_type i = InstructionType.LOAD)
            && Instruction.speculative i) eqn:Hspec.
  - pose proof (pure_run _ _ _ _ (pure_validate_load r) E) as ->.
    exists v. split; [done|]. clear E.
    destruct v.
    + inv_bind H. inv_bind H. destruct a0. unfold modify in E.
      injection E as <-. by minv.
    + apply andb_true_iff in Hspec as [Hld%bool_decide_eq_true _].
      destruct (decide (Instruction.instr_type i = InstructionType.STORE));
        [congruence|].
      inv_bind H. unfold in_predictor, zoom in E.
      destruct (StoreSetPredictor.report_correct_speculation
                  (Instruction.pc i) (predictor w1)) as [[] p'|] eqn:Hp;
        [|done].
      minv. eauto.
  - unfold ret in E. injection E as <- <-.
    inv_bind H. unfold ret in E. injection E as <- <-.
    destruct (decide (Instruction.instr_type i = InstructionType.STORE)).
    + inv_bind H. inv_bind E.
      destruct (Instruction.address i) as [ad|]; [|by minv].
      destruct (Instruction.data i) as [d|]; [|by minv].
      unfold modify in E0. injection E0 as <- <-.
      unfold in_predictor, zoom in E. simpl in E.
      change (predictor w) with (predictor w1) in E.
      destruct (StoreSetPredictor.clear_store (Instruction.pc i)
                  (predictor w1)) as [[] p'|] eqn:Hp; [|done].
      minv. split; [done|]. eexists _, _, _. eauto.
    + by minv.
Qed.

(** ** What the stages leave alone *)

Lemma keeps_in_rob_store {A B} (g : store -> B) (m : M ReorderBuffer.st A) :
  keeps (fun s => g s.1) m -> keeps (fun w => g (instrs w)) (in_rob m).
Proof.
  intros H w a w'. unfold in_rob, zoom.
  destruct (m (instrs w, rob w)) as [a' s'|] eqn:E; [|done].
  intros [= <- <-]. simpl. exact (H _ _ _ E).
Qed.

Lemma keeps_flags_update r f :
  (forall i, Instruction.executed (f i) = Instruction.executed i
             /\ Instruction.completed (f i) = Instruction.completed i) ->
  keeps (fun w => executed_flags (instrs w)) (update r f).
Proof.
  intros Hf w a w' H. unfold update, deref in H. minv. simpl.
  unfold executed_flags. rewrite fmap_insert.
  apply insert_id. rewrite lookup_fmap, Heqo. simpl.
  by destruct (Hf a0) as [-> ->].
Qed.

Lemma keeps_flags_rob_update r f :
  (forall i, Instruction.executed (f i) = Instruction.executed i
             /\ Instruction.completed (f i) = Instruction.completed i) ->
  keeps (fun s : ReorderBuffer.st => executed_flags s.1)
        (ReorderBuffer.update r f).
Proof.
  intros Hf [h b] a s' H. unfold ReorderBuffer.update, ReorderBuffer.deref in H.
  minv. simpl in *.
  unfold executed_flags. rewrite fmap_insert.
  apply insert_id. rewrite lookup_fmap, Heqo. simpl.
  by destruct (Hf a0) as [-> ->].
Qed.

Section rob_store.
Context {B : Type} (g : store -> B).
Let f (s : ReorderBuffer.st) : B := g s.1.

Lemma keeps_store_rob_getitem idx : keeps f (ReorderBuffer.getitem idx).
Proof. unfold ReorderBuffer.getitem, ReorderBuffer.rob. auto with frame. Qed.

Lemma keeps_store_rob_setitem idx e : keeps f (ReorderBuffer.setitem idx e).
Proof.
  unfold ReorderBuffer.setitem, ReorderBuffer.rob, ReorderBuffer.modify_rob.
  auto with frame.
Qed.

Lemma keeps_store_rob_deref r : keeps f (ReorderBuffer.deref r).
Proof. unfold ReorderBuffer.deref. auto with frame. Qed.

Hint Resolve keeps_store_rob_getitem keeps_store_rob_setitem
  keeps_store_rob_deref : frame.

Lemma keeps_store_rob_is_full : keeps f ReorderBuffer.is_full.
Proof. unfold ReorderBuffer.is_full, ReorderBuffer.rob. auto with frame. Qed.

Lemma keeps_store_rob_allocate r : keeps f (ReorderBuffer.allocate r).
Proof.
  unfold ReorderBuffer.allocate, ReorderBuffer.is_full, ReorderBuffer.rob,
    ReorderBuffer.modify_rob.
  auto 20 with frame.
Qed.

Lemma keeps_store_rob_squash_tail fuel idx :
  keeps f (ReorderBuffer.squash_tail fuel idx).
Proof.
  revert idx. induction fuel as [|fuel IH]; intros idx; simpl;
    unfold ReorderBuffer.rob, ReorderBuffer.modify_rob; auto 20 with frame.
Qed.

Hint Resolve keeps_store_rob_squash_tail : frame.

Lemma keeps_store_rob_squash_from n : keeps f (ReorderBuffer.squash_from n).
Proof.
  unfold ReorderBuffer.squash_from.
  apply keeps_bind; [unfold ReorderBuffer.rob; auto with frame|].
  intros b. generalize (ReorderBuffer.head b).
  induction (Z.to_nat (ReorderBuffer.size b)) as [|k IH]; intros idx;
    cbn [ReorderBuffer.squash_scan];
    unfold ReorderBuffer.seq_ge, ReorderBuffer.rob; auto 20 with frame.
Qed.
End rob_store.

Lemma keeps_flags_rob_commit_head :
  keeps (fun s : ReorderBuffer.st => executed_flags s.1)
        ReorderBuffer.commit_head.
Proof.
  unfold ReorderBuffer.commit_head, ReorderBuffer.is_empty,
    ReorderBuffer.rob, ReorderBuffer.modify_rob.
  pose proof (keeps_flags_rob_update).
  pose proof (keeps_store_rob_getitem executed_flags).
  pose proof (keeps_store_rob_setitem executed_flags).
  pose proof (keeps_store_rob_deref executed_flags).
  auto 30 with frame.
Qed.

Lemma keeps_execute_view_zoom_store {A} (m : M ReorderBuffer.st A) :
  keeps (fun s => executed_flags s.1) m -> keeps execute_view (in_rob m).
Proof.
  intros H w a w' E. unfold execute_view.
  rewrite (keeps_in_rob_store executed_flags m H _ _ _ E).
  unfold in_rob, zoom in E.
  destruct (m (instrs w, rob w)); [|done]. by injection E as <- <-.
Qed.

Lemma keeps_execute_view_update r f :
  (forall i, Instruction.executed (f i) = Instruction.executed i
             /\ Instruction.completed (f i) = Instruction.completed i) ->
  keeps execute_view (update r f).
Proof.
  intros Hf w a w' E. unfold execute_view.
  rewrite (keeps_flags_update r f Hf _ _ _ E).
  unfold update, deref in E. by minv.
Qed.

#[local] Hint Extern 1 (keeps execute_view (in_rob _)) =>
  apply keeps_execute_view_zoom_store : frame.
#[local] Hint Extern 1 (keeps execute_view (update _ _)) =>
  apply keeps_execute_view_update; intros ?; split; reflexivity : frame.
#[local] Hint Resolve keeps_flags_rob_commit_head keeps_store_rob_is_full
  keeps_store_rob_allocate keeps_store_rob_squash_from : frame.
#[local] Hint Extern 1 (keeps _ (deref _)) => unfold deref : frame.

Lemma keeps_execute_view_issue r : keeps execute_view (issue_instruction r).
Proof. unfold issue_instruction. auto 40 with frame. Qed.

Lemma keeps_execute_view_commit set_pop :
  keeps execute_view (commit_instruction set_pop).
Proof.
  unfold commit_instruction, _validate_load, _recover_from_violation.
  auto 40 with frame.
Qed.

Lemma keeps_cycle_issue r : keeps cycle (issue_instruction r).
Proof. unfold issue_instruction, update. auto 40 with frame. Qed.

Lemma keeps_cycle_commit set_pop : keeps cycle (commit_instruction set_pop).
Proof.
  unfold commit_instruction, _validate_load, _recover_from_violation.
  auto 40 with frame.
Qed.

(** ** Stores and memory *)



(** ** The LSQ at commit *)

(** C6, as the code has it: a commit that retires an instruction leaves the
    LSQ exactly as it was; the entry of a committed load or store stays in
    its slot and the occupancy does not change. *)
Theorem commit_keeps_lsq set_pop (w w' : t) (r : ref) :
  commit_instruction set_pop w = Ret (Some r) w' -> lsq w' = lsq w.
Proof.
  intros H. apply commit_instruction_Ret in H as (c0 & s1 & Hc & H).
  simpl in H. destruct c0 as [r0|]; [|by destruct H].
  destruct H as (i & Hi & H).
  destruct (_ && _).
  - destruct H as (v & _ & H). destruct v; [by destruct H|].
    by destruct H as (_ & p' & _ & ->).
  - destruct (decide _).
    + by destruct H as (_ & a & d & p' & _ & _ & _ & ->).
    + by destruct H as [_ ->].
Qed.

Lemma commit_keeps_lsq_witness :
  commit_instruction pop_min w_store_ready = Ret (Some 0%nat) w_store_committed
  /\ lsq w_store_committed = lsq w_store_ready.
Proof.
  split; [vm_compute; reflexivity|].
  apply (commit_keeps_lsq pop_min _ _ 0%nat). vm_compute. reflexivity.
Defined.

(** C6 refuted as stated: the store with sequence number 0 is committed, and
    the LSQ still holds its entry in slot 0 with occupancy 1. *)
Lemma commit_keeps_lsq_counterexample :
  store_ready (init 32 16) = Ret true w_store_ready
  /\ commit_instruction pop_min w_store_ready = Ret (Some 0%nat) w_store_committed
  /\ Instruction.seq_num <$> (instrs w_store_committed !! 0%nat) = Some (Some 0)
  /\ Instruction.committed <$> (instrs w_store_committed !! 0%nat) = Some true
  /\ (fun e : option LSQEntry.t => LSQEntry.seq_num <$> e)
       <$> (LoadStoreQueue.entries (lsq w_store_committed) !! 0%nat)
     = Some (Some 0)
  /\ LoadStoreQueue.size (lsq w_store_ready) = 1
  /\ LoadStoreQueue.size (lsq w_store_committed) = 1.
Proof. by_evaluation. Qed.

(** ** The cycle driver *)

Lemma in_rob_is_full (w : t) :
  in_rob ReorderBuffer.is_full w
  = Ret (bool_decide (ReorderBuffer.size (rob w)
                      >= ReorderBuffer.capacity (rob w))) w.
Proof. by destruct w. Qed.




(** ** Executing a load *)

Lemma deref_Ret (w : t) (r : ref) (i : Instruction.t) :
  instrs w !! r = Some i -> deref r w = Ret i w.
Proof. intros H. unfold deref, bind, get. by rewrite H. Qed.

Lemma update_Ret (w : t) (r : ref) (i : Instruction.t) f :
  instrs w !! r = Some i ->
  update r f w = Ret tt (with_instrs (<[r := f i]> (instrs w)) w).
Proof. intros H. unfold update. by rewrite (bind_step _ _ _ _ _ (deref_Ret _ _ _ H)). Qed.

Lemma in_lsq_Ret {A} (m : M LoadStoreQueue.t A) (w : t) a q :
  m (lsq w) = Ret a q -> in_lsq m w = Ret a (with_lsq q w).
Proof. intros H. unfold in_lsq, zoom. by rewrite H. Qed.

Lemma in_predictor_Ret {A} (m : M StoreSetPredictor.t A) (w : t) a p :
  m (predictor w) = Ret a p -> in_predictor m w = Ret a (with_predictor p w).
Proof. intros H. unfold in_predictor, zoom. by rewrite H. Qed.

Lemma read_reg_Ret (w : t) (k v : Z) :
  py_getitem (registers w) k = Some v -> read_reg k w = Ret v w.
Proof. intros H. unfold read_reg, bind, get. by rewrite H. Qed.

(** Step a goal [bind m k s = _] with a known result of [m s]. *)
Ltac mstep H := rewrite (bind_step _ _ _ _ _ H).



End pipeline.

(** * Committed loads *)

Section committed_loads.
Import Pipeline.

Lemma run_call_reachable set_pop (c : call) (w w' : t) :
  reachable set_pop any_issue w ->
  run_call set_pop c w = Some w' ->
  reachable set_pop any_issue w'.
Proof.
  intros Hw H. destruct c; simpl in H.
  - case_decide; [|done]. injection H as <-. by apply reach_new.
  - destruct (issue_instruction r w) eqn:E; [|done]. injection H as <-.
    by eapply reach_issue.
  - destruct (execute_instruction r w) eqn:E; [|done]. injection H as <-.
    by eapply reach_execute.
  - destruct (commit_instruction set_pop w) eqn:E; [|done]. injection H as <-.
    by eapply reach_commit.
  - destruct (cycle_step set_pop stream w) eqn:E; [|done]. injection H as <-.
    by eapply reach_cycle_step.
Qed.

Lemma run_calls_reachable set_pop (cs : list call) (w w' : t) :
  reachable set_pop any_issue w ->
  run_calls set_pop cs w = Some w' ->
  reachable set_pop any_issue w'.
Proof.
  revert w. induction cs as [|c cs IH]; intros w Hw H; simpl in H.
  - by injection H as <-.
  - destruct (run_call set_pop c w) as [w1|] eqn:E; [|done]. simpl in H.
    eapply IH; [|done]. by eapply run_call_reachable.
Qed.


(** ** The dependency check as a function of the older slots *)

Lemma newest_conflict_snoc (a sz : Z) (l : list (option LSQEntry.t)) o :
  newest_conflict a sz (l ++ [o])
  = match entry_effect a sz o with
    | Some x => Some x
    | None => newest_conflict a sz l
    end.
Proof.
  unfold newest_conflict. rewrite omap_app, last_app. simpl.
  by destruct (entry_effect a sz o).
Qed.

Lemma scan_body_value (q q' : LoadStoreQueue.t) (la ls idx : Z)
    (acc acc' : LoadStoreQueue.scan_state) nc :
  0 <= idx ->
  acc_repr acc nc ->
  LoadStoreQueue.scan_body (Some la) ls idx acc q = Ret acc' q' ->
  q' = q
  /\ exists o,
      LoadStoreQueue.entries q !! Z.to_nat idx = Some o
      /\ acc_repr acc' (match entry_effect la ls o with
                        | Some x => Some x
                        | None => nc
                        end).
Proof.
  intros Hidx Hacc H.
  pose proof (pure_run _ _ _ _ (pure_scan_body _ _ _ _) H) as ->.
  split; [done|].
  unfold LoadStoreQueue.scan_body in H. inv_bind H.
  unfold LoadStoreQueue.getitem, bind, get, py_getitem, py_index in E.
  case_bool_decide as Hr; [|by rewrite bool_decide_eq_false_2 in E by lia].
  simpl in E.
  destruct (LoadStoreQueue.entries q !! Z.to_nat idx) as [o|] eqn:Ho;
    [|done].
  simpl in E. injection E as <- <-. exists o. split; [done|].
  unfold entry_effect. destruct o as [e|]; [|by minv].
  destruct (bool_decide (LSQEntry.op_type e = MemOpType.STORE
                         \/ LSQEntry.op_type e = MemOpType.ATOMIC));
    [|by minv].
  destruct (LSQEntry.address_valid e); [|by minv].
  inv_bind H. unfold LoadStoreQueue._addresses_overlap in E.
  destruct (LSQEntry.address e) as [sa|] eqn:Ha; [|done].
  unfold ret in E. injection E as <- <-.
  fold (overlaps sa (LSQEntry.size e) la ls) in H.
  destruct (overlaps sa (LSQEntry.size e) la ls); [|by minv].
  destruct (_ && _); by minv.
Qed.

Lemma scan_value (q q' : LoadStoreQueue.t) (la ls load_idx : Z) (fuel : nat) :
  load_idx < LoadStoreQueue.capacity q ->
  forall (idx : Z) (acc acc' : LoadStoreQueue.scan_state),
    0 <= idx <= load_idx ->
    acc_repr acc
      (newest_conflict la ls (take (Z.to_nat idx) (LoadStoreQueue.entries q))) ->
    LoadStoreQueue.scan fuel load_idx (Some la) ls idx acc q = Ret acc' q' ->
    q' = q
    /\ acc_repr acc'
         (newest_conflict la ls
            (take (Z.to_nat load_idx) (LoadStoreQueue.entries q))).
Proof.
  intros Hcap. induction fuel as [|fuel IH]; intros idx acc acc' Hidx Hacc H;
    simpl in H; case_bool_decide as Heq; subst; try by minv.
  inv_bind H. rename a into acc1.
  destruct (scan_body_value _ _ _ _ _ _ _ _ (proj1 Hidx) Hacc E)
    as (-> & o & Ho & Hacc1).
  inv_bind H. unfold gets in E0. injection E0 as <- <-.
  inv_bind H. unfold py_mod in E0. case_bool_decide; [done|].
  unfold ret in E0. injection E0 as <- <-.
  rewrite Z.mod_small in H by lia.
  apply IH in H; [done|lia|].
  replace (Z.to_nat (idx + 1)) with (S (Z.to_nat idx)) by lia.
  rewrite (take_S_r _ _ _ Ho). by rewrite newest_conflict_snoc.
Qed.

Lemma check_dependency_value (q q' : LoadStoreQueue.t) (k a : Z)
    (e : LSQEntry.t) (has_dep : bool) (fwd_idx fwd_data : option Z) :
  LoadStoreQueue.head q = 0 ->
  0 <= k < LoadStoreQueue.capacity q ->
  LoadStoreQueue.entries q !! Z.to_nat k = Some (Some e) ->
  LSQEntry.address_valid e = true ->
  LSQEntry.address e = Some a ->
  LoadStoreQueue.check_dependency k q = Ret (has_dep, fwd_idx, fwd_data) q' ->
  let nc := newest_conflict a (LSQEntry.size e)
              (take (Z.to_nat k) (LoadStoreQueue.entries q)) in
  q' = q
  /\ has_dep = bool_decide (nc <> None)
  /\ fwd_data = from_option id None nc.
Proof.
  intros Hhd Hk He Hv Ha H nc.
  pose proof (pure_run _ _ _ _ (pure_check_dependency _) H) as ->.
  split; [done|].
  unfold LoadStoreQueue.check_dependency in H. inv_bind H.
  unfold LoadStoreQueue.getitem, bind, get in E.
  rewrite (py_getitem_lookup _ _ _ (proj1 Hk) He) in E.
  unfold ret in E. injection E as <- <-.
  rewrite Hv, Ha in H. cbn [negb] in H.
  inv_bind H. unfold get in E. injection E as <- <-.
  inv_bind H. destruct a0 as [[latest cf] fd].
  rewrite Hhd in E.
  apply (scan_value q) in E as [_ Hacc]; [|lia|lia|done].
  fold nc in Hacc. unfold ret in H. injection H as <- <- <-.
  unfold acc_repr in Hacc. simpl in Hacc.
  destruct latest; [rewrite Hacc|destruct Hacc as [-> ->]]; done.
Qed.

(** ** The ROB as a ring *)

Lemma mod_offset_inj (hd cap j1 j2 : Z) :
  0 < cap -> 0 <= j1 < cap -> 0 <= j2 < cap ->
  (hd + j1) `mod` cap = (hd + j2) `mod` cap -> j1 = j2.
Proof.
  intros Hcap H1 H2 Heq.
  assert (Hd : (j1 - j2) `mod` cap = 0).
  { replace (j1 - j2) with ((hd + j1) - (hd + j2)) by lia.
    rewrite Zminus_mod, Heq, Z.sub_diag. by apply Z.mod_0_l, Z.neq_sym, Z.lt_neq. }
  apply Z.mod_divide in Hd as [c Hc]; [|lia].
  destruct (decide (c = 0)) as [->|Hc0]; [lia|].
  assert (c <= -1 \/ 1 <= c) as [?|?] by lia; nia.
Qed.

Lemma rob_repr_push (b : ReorderBuffer.t) (rl : list ref) (r : ref) :
  rob_repr b rl ->
  ReorderBuffer.size b < ReorderBuffer.capacity b ->
  rob_repr (rob_push b r) (rl ++ [r]).
Proof.
  intros [Hlen Hhd Hsz Hbd Htl Hsl] Hfull.
  assert (Hcap : 0 < ReorderBuffer.capacity b) by lia.
  specialize (Hhd Hcap). specialize (Htl Hcap).
  pose proof (Z.mod_pos_bound (ReorderBuffer.head b + ReorderBuffer.size b)
                _ Hcap) as Htr. rewrite <- Htl in Htr.
  split; unfold rob_push; simpl.
  - rewrite length_insert. done.
  - done.
  - rewrite length_app. simpl. lia.
  - lia.
  - intros _. rewrite Htl, Z.add_mod_idemp_l by lia. f_equal. lia.
  - intros j r0 Hj. unfold rob_slot. simpl.
    apply lookup_app_Some in Hj as [Hj|[Hge Hj]].
    + rewrite list_lookup_insert_ne; [by apply Hsl|].
      apply lookup_lt_Some in Hj. intros Heq.
      apply Z2Nat.inj in Heq; [|lia|apply Z.mod_pos_bound; lia].
      rewrite Htl in Heq. apply mod_offset_inj in Heq; lia.
    + apply list_lookup_singleton_Some in Hj as [Hj ->].
      replace (Z.of_nat j) with (ReorderBuffer.size b) by lia.
      rewrite <- Htl. apply list_lookup_insert_eq. lia.
Qed.

Lemma rob_repr_pop (b : ReorderBuffer.t) (rl : list ref) (r : ref) :
  rob_repr b (r :: rl) ->
  rob_repr (rob_pop b) rl.
Proof.
  intros [Hlen Hhd Hsz Hbd Htl Hsl]. simpl in Hsz.
  assert (Hcap : 0 < ReorderBuffer.capacity b) by lia.
  specialize (Hhd Hcap). specialize (Htl Hcap).
  split; unfold rob_pop; simpl.
  - rewrite length_insert. done.
  - intros _. apply Z.mod_pos_bound. lia.
  - lia.
  - lia.
  - intros _. rewrite Htl, Z.add_mod_idemp_l by lia. f_equal. lia.
  - intros j r0 Hj. unfold rob_slot. simpl.
    rewrite Z.add_mod_idemp_l by lia.
    replace (ReorderBuffer.head b + 1 + Z.of_nat j)
      with (ReorderBuffer.head b + Z.of_nat (S j)) by lia.
    rewrite list_lookup_insert_ne; [by apply (Hsl (S j))|].
    apply lookup_lt_Some in Hj. intros Heq.
    apply Z2Nat.inj in Heq; [|lia|apply Z.mod_pos_bound; lia].
    rewrite <- (Z.mod_small (ReorderBuffer.head b) (ReorderBuffer.capacity b))
      in Heq at 1 by lia.
    replace (ReorderBuffer.head b) with (ReorderBuffer.head b + 0) in Heq at 1
      by lia.
    apply mod_offset_inj in Heq; lia.
Qed.

Lemma rob_repr_head (b : ReorderBuffer.t) (rl : list ref) (r : ref) :
  rob_repr b (r :: rl) ->
  ReorderBuffer.entries b !! Z.to_nat (ReorderBuffer.head b) = Some (Some r)
  /\ 0 <= ReorderBuffer.head b < ReorderBuffer.capacity b.
Proof.
  intros [Hlen Hhd Hsz Hbd Htl Hsl]. simpl in Hsz.
  assert (Hcap : 0 < ReorderBuffer.capacity b) by lia.
  split; [|by apply Hhd].
  specialize (Hsl 0%nat r eq_refl). unfold rob_slot in Hsl.
  by rewrite Z.add_0_r, Z.mod_small in Hsl by (by apply Hhd).
Qed.

(** ** Objects whose key does not change *)

Lemma heap_key_insert (h : store) (r : ref) (i i' : Instruction.t) :
  h !! r = Some i -> obj_key i' = obj_key i ->
  forall r0, heap_key (<[r := i']> h) r0 = heap_key h r0.
Proof.
  intros Hr Hk r0. unfold heap_key.
  destruct (decide (r0 = r)) as [->|Hne].
  - by rewrite lookup_insert_eq, Hr; simpl; rewrite Hk.
  - by rewrite lookup_insert_ne.
Qed.

Lemma heap_key_Some (h : store) (r : ref) (i : Instruction.t) :
  h !! r = Some i -> heap_key h r = Some (obj_key i).
Proof. unfold heap_key. by intros ->. Qed.

Lemma heap_key_lookup (h h' : store) (r : ref) (i : Instruction.t) :
  heap_key h' r = heap_key h r -> h !! r = Some i ->
  exists i', h' !! r = Some i' /\ obj_key i' = obj_key i.
Proof.
  unfold heap_key. intros Hk Hi. rewrite Hi in Hk. simpl in Hk.
  destruct (h' !! r) as [i'|]; [|done]. simpl in Hk.
  exists i'. split; [done|]. congruence.
Qed.

Lemma obj_key_fields (i i' : Instruction.t) :
  obj_key i' = obj_key i ->
  Instruction.seq_num i' = Instruction.seq_num i
  /\ Instruction.lsq_idx i' = Instruction.lsq_idx i
  /\ Instruction.committed i' = Instruction.committed i.
Proof. unfold obj_key. by intros [= -> -> ->]. Qed.

Lemma lsq_ok_heap (h h' : store) (q : LoadStoreQueue.t) :
  (forall r, heap_key h' r = heap_key h r) -> lsq_ok h q -> lsq_ok h' q.
Proof.
  intros Hk [Hhd Hlen Hsz Htl Hent Hsrt]. split; try done.
  intros k Hkr. destruct (Hent k Hkr) as (e & He & H4 & Hav & r & i & Hi & Hl).
  exists e. repeat (split; [done|]).
  destruct (heap_key_lookup _ _ _ _ (Hk r) Hi) as (i' & Hi' & Hki).
  apply obj_key_fields in Hki as (_ & Hl' & _).
  exists r, i'. split; [done|]. by rewrite Hl'.
Qed.

Lemma rob_ok_heap (h h' : store) (b : ReorderBuffer.t) (rl : list ref) :
  (forall r, heap_key h' r = heap_key h r) -> rob_ok h b rl -> rob_ok h' b rl.
Proof.
  intros Hk [Hring Hmem Hsrt]. split; [done| |].
  - intros r. rewrite Hmem. split.
    + intros (i & Hi & Hs & Hc).
      destruct (heap_key_lookup _ _ _ _ (Hk r) Hi) as (i' & Hi' & Hki).
      apply obj_key_fields in Hki as (Hs' & _ & Hc').
      exists i'. by rewrite Hs', Hc'.
    + intros (i & Hi & Hs & Hc).
      destruct (heap_key_lookup _ _ _ _ (eq_sym (Hk r)) Hi) as (i' & Hi' & Hki).
      apply obj_key_fields in Hki as (Hs' & _ & Hc').
      exists i'. by rewrite Hs', Hc'.
  - intros j1 j2 r1 r2 i1 i2 n1 n2 Hj H1 H2 Hi1 Hi2 Hn1 Hn2.
    destruct (heap_key_lookup _ _ _ _ (eq_sym (Hk r1)) Hi1) as (i1' & Hi1' & Hk1).
    destruct (heap_key_lookup _ _ _ _ (eq_sym (Hk r2)) Hi2) as (i2' & Hi2' & Hk2).
    apply obj_key_fields in Hk1 as (Hs1 & _ & _).
    apply obj_key_fields in Hk2 as (Hs2 & _ & _).
    eapply (Hsrt j1 j2 r1 r2 i1' i2'); try done; congruence.
Qed.

Lemma seq_inj_heap (h h' : store) :
  (forall r, heap_key h' r = heap_key h r) -> seq_inj h -> seq_inj h'.
Proof.
  intros Hk Hinj r1 r2 i1 i2 n Hi1 Hi2 Hn1 Hn2.
  destruct (heap_key_lookup _ _ _ _ (eq_sym (Hk r1)) Hi1) as (i1' & Hi1' & Hk1).
  destruct (heap_key_lookup _ _ _ _ (eq_sym (Hk r2)) Hi2) as (i2' & Hi2' & Hk2).
  apply obj_key_fields in Hk1 as (Hs1 & _ & _).
  apply obj_key_fields in Hk2 as (Hs2 & _ & _).
  eapply (Hinj r1 r2 i1' i2' n); congruence.
Qed.

(** ** Objects whose own slot does not change *)

Lemma obj_ok_transfer (q q' : LoadStoreQueue.t) (mem mem' : gmap Z Z)
    (nxt nxt' : Z) (i : Instruction.t) :
  obj_ok q mem nxt i ->
  nxt <= nxt' ->
  LoadStoreQueue.size q <= LoadStoreQueue.size q' ->
  (forall k e,
      Instruction.lsq_idx i = Some k ->
      LoadStoreQueue.entries q !! Z.to_nat k = Some (Some e) ->
      LoadStoreQueue.entries q' !! Z.to_nat k = Some (Some e)
      /\ (load_value_ok q mem k e i -> load_value_ok q' mem' k e i)) ->
  obj_ok q' mem' nxt' i.
Proof.
  intros [H1 H2 H3 H4 H5 H6 H7 H8] Hn Hs Hent. split; try done.
  - intros n Hsn. specialize (H6 n Hsn). lia.
  - intros k Hk. destruct (H8 k Hk) as (Hr & e & He & Hseq & Hm).
    destruct (Hent k e Hk He) as (He' & Hld).
    split; [lia|]. exists e. repeat (split; [done|]).
    unfold entry_matches in *.
    destruct (Instruction.instr_type i); try done.
    destruct Hm as [Hop Hv]. split; [done|]. auto.
Qed.

(** ** What a load's value depends on *)

Lemma load_value_ok_ext (q q' : LoadStoreQueue.t) (mem mem' : gmap Z Z)
    (k : Z) (e : LSQEntry.t) (i : Instruction.t) :
  (forall a, Instruction.address i = Some a ->
     newest_conflict a 4 (take (Z.to_nat k) (LoadStoreQueue.entries q'))
     = newest_conflict a 4 (take (Z.to_nat k) (LoadStoreQueue.entries q))
     /\ (newest_conflict a 4 (take (Z.to_nat k) (LoadStoreQueue.entries q))
         = None -> mem' !! a = mem !! a)) ->
  load_value_ok q mem k e i -> load_value_ok q' mem' k e i.
Proof.
  intros Hext (Hv & a & v & Ha & Hia & Hd & Hnc).
  split; [done|]. exists a, v. repeat (split; [done|]).
  destruct (Hext a Hia) as [-> Hmem].
  destruct (newest_conflict _ _ _) as [[d|]|]; try done.
  by rewrite Hmem.
Qed.

Lemma omap_insert_quiet {A B} (f : A -> option B) (l : list A) (k0 : nat)
    (x y : A) :
  l !! k0 = Some x -> f x = None -> f y = None ->
  omap f (<[k0 := y]> l) = omap f l.
Proof.
  intros Hx Hfx Hfy.
  rewrite insert_take_drop by (by eapply lookup_lt_Some).
  rewrite <- (take_drop_middle l k0 x Hx) at 3.
  rewrite !omap_app. simpl. by rewrite Hfx, Hfy.
Qed.

Lemma newest_conflict_insert_quiet (a sz : Z) (l : list (option LSQEntry.t))
    (k0 k : nat) (x y : option LSQEntry.t) :
  l !! k0 = Some x ->
  entry_effect a sz x = None -> entry_effect a sz y = None ->
  newest_conflict a sz (take k (<[k0 := y]> l))
  = newest_conflict a sz (take k l).
Proof.
  intros Hx Hfx Hfy. unfold newest_conflict.
  destruct (decide (k0 < k)%nat) as [Hlt|Hge].
  - rewrite take_insert_lt by done.
    rewrite (omap_insert_quiet _ _ _ x y); [done| |done|done].
    by rewrite lookup_take_lt.
  - by rewrite take_insert_ge by lia.
Qed.

Lemma newest_conflict_insert_blocked (a sz : Z)
    (l : list (option LSQEntry.t)) (k0 k : nat) (x y : option LSQEntry.t) :
  l !! k0 = Some x ->
  entry_effect a sz x = Some None ->
  newest_conflict a sz (take k l) <> Some None ->
  newest_conflict a sz (take k (<[k0 := y]> l))
  = newest_conflict a sz (take k l).
Proof.
  intros Hx Hfx Hnc. unfold newest_conflict in *.
  destruct (decide (k0 < k)%nat) as [Hlt|Hge];
    [|by rewrite take_insert_ge by lia].
  rewrite take_insert_lt by done.
  assert (Hx' : take k l !! k0 = Some x) by (by rewrite lookup_take_lt).
  set (f := fun o => entry_effect a sz o) in *.
  set (l1 := take k0 (take k l)). set (l2 := drop (S k0) (take k l)).
  assert (Hold : omap f (take k l) = omap f l1 ++ None :: omap f l2).
  { rewrite <- (take_drop_middle (take k l) k0 x Hx') at 1.
    rewrite omap_app.
    change (omap f (x :: drop (S k0) (take k l)))
      with (match f x with
            | Some b => b :: omap f l2
            | None => omap f l2
            end).
    by rewrite Hfx. }
  assert (Hnew : omap f (<[k0 := y]> (take k l))
                 = omap f l1 ++ omap f [y] ++ omap f l2).
  { rewrite insert_take_drop by (by eapply lookup_lt_Some).
    rewrite omap_app. f_equal.
    change (y :: drop (S k0) (take k l)) with ([y] ++ l2).
    by rewrite omap_app. }
  rewrite Hold in Hnc |- *. rewrite Hnew.
  rewrite last_app, last_cons in Hnc. rewrite !last_app, last_cons.
  by destruct (last (omap f l2)) as [z|] eqn:Hl.
Qed.

Lemma newest_conflict_None_inv (a sz : Z) (l : list (option LSQEntry.t))
    (j : nat) (o : option LSQEntry.t) :
  newest_conflict a sz l = None -> l !! j = Some o ->
  entry_effect a sz o = None.
Proof.
  unfold newest_conflict. intros Hl%last_None Ho.
  destruct (entry_effect a sz o) as [y|] eqn:Hy; [|done].
  assert (y ∈ omap (fun o => entry_effect a sz o) l) as Hin.
  { apply list_elem_of_omap. exists o. split; [|done].
    by eapply list_elem_of_lookup_2. }
  rewrite Hl in Hin. by apply not_elem_of_nil in Hin.
Qed.

(** ** Taking the stages apart *)

Lemma in_lsq_inv {A} (m : M LoadStoreQueue.t A) (w w' : t) (a : A) :
  in_lsq m w = Ret a w' ->
  exists q', m (lsq w) = Ret a q' /\ w' = with_lsq q' w.
Proof.
  unfold in_lsq, zoom. destruct (m (lsq w)) as [a' q'|]; [|done].
  intros [= <- <-]. eauto.
Qed.

Lemma in_predictor_inv {A} (m : M StoreSetPredictor.t A) (w w' : t) (a : A) :
  in_predictor m w = Ret a w' ->
  exists p', w' = with_predictor p' w.
Proof.
  unfold in_predictor, zoom. destruct (m (predictor w)) as [a' p'|]; [|done].
  intros [= <- <-]. eauto.
Qed.

Lemma in_rob_inv {A} (m : M ReorderBuffer.st A) (w w' : t) (a : A) :
  in_rob m w = Ret a w' ->
  exists s', m (instrs w, rob w) = Ret a s'
             /\ w' = with_rob s'.2 (with_instrs s'.1 w).
Proof.
  unfold in_rob, zoom. destruct (m (instrs w, rob w)) as [a' s'|]; [|done].
  intros [= <- <-]. eauto.
Qed.

Lemma update_inv (r : ref) f (w w' : t) (u : unit) :
  update r f w = Ret u w' ->
  exists i, instrs w !! r = Some i
            /\ w' = with_instrs (<[r := f i]> (instrs w)) w.
Proof.
  unfold update, deref. intros H. minv. eauto.
Qed.

Lemma deref_inv (r : ref) (w w' : t) (i : Instruction.t) :
  deref r w = Ret i w' -> instrs w !! r = Some i /\ w' = w.
Proof. unfold deref. intros H. by minv. Qed.

Lemma lsq_allocate_Ret (seq pc : Z) op (sz : Z) (q q' : LoadStoreQueue.t)
    (o : option Z) :
  LoadStoreQueue.allocate seq pc op sz q = Ret o q' ->
  (LoadStoreQueue.size q >= LoadStoreQueue.capacity q /\ o = None /\ q' = q)
  \/ (LoadStoreQueue.size q < LoadStoreQueue.capacity q
      /\ LoadStoreQueue.capacity q <> 0
      /\ o = Some (LoadStoreQueue.tail q)
      /\ exists l,
          py_setitem (LoadStoreQueue.entries q) (LoadStoreQueue.tail q)
            (Some (LSQEntry.init seq pc op sz)) = Some l
          /\ q' = LoadStoreQueue.with_size (LoadStoreQueue.size q + 1)
                    (LoadStoreQueue.with_tail
                       ((LoadStoreQueue.tail q + 1)
                          `mod` LoadStoreQueue.capacity q)
                       (LoadStoreQueue.with_entries l q))).
Proof.
  intros H. unfold LoadStoreQueue.allocate, LoadStoreQueue.is_full,
    LoadStoreQueue.setitem in H.
  minv; simpl in *.
  - left. by apply bool_decide_eq_true in Heqb.
  - right. apply bool_decide_eq_false in Heqb.
    repeat (split; [done || lia|]). eauto.
Qed.

Lemma rob_allocate_Ret (r : ref) (s s' : ReorderBuffer.st) (o : option Z) :
  ReorderBuffer.allocate r s = Ret o s' ->
  (ReorderBuffer.size s.2 >= ReorderBuffer.capacity s.2 /\ o = None /\ s' = s)
  \/ (ReorderBuffer.size s.2 < ReorderBuffer.capacity s.2
      /\ ReorderBuffer.capacity s.2 <> 0
      /\ o = Some (ReorderBuffer.tail s.2)
      /\ exists l,
          py_setitem (ReorderBuffer.entries s.2) (ReorderBuffer.tail s.2)
            (Some r) = Some l
          /\ s' = (s.1,
                   ReorderBuffer.with_size (ReorderBuffer.size s.2 + 1)
                     (ReorderBuffer.with_tail
                        ((ReorderBuffer.tail s.2 + 1)
                           `mod` ReorderBuffer.capacity s.2)
                        (ReorderBuffer.with_entries l s.2)))).
Proof.
  destruct s as [h b]. intros H.
  unfold ReorderBuffer.allocate, ReorderBuffer.is_full, ReorderBuffer.setitem,
    ReorderBuffer.rob, ReorderBuffer.modify_rob in H.
  minv; simpl in *.
  - left. by apply bool_decide_eq_true in Heqb.
  - right. apply bool_decide_eq_false in Heqb.
    repeat (split; [done || lia|]). eauto.
Qed.

(** ** The invariant holds initially and when an object is created *)

Lemma Inv_init (rob_size lsq_size : Z) : Inv (init rob_size lsq_size).
Proof.
  unfold Inv, inv. simpl. repeat apply conj.
  - intros r i Hr. by rewrite lookup_empty in Hr.
  - split; simpl; try done.
    + rewrite length_replicate. lia.
    + lia.
    + by case_bool_decide.
    + intros k Hk. lia.
    + intros k1 k2 e1 e2 H1 H2. lia.
  - exists []. split.
    + split; simpl; rewrite ?length_replicate; try lia; try done.
    + intros r. split; [by intros ?%not_elem_of_nil|].
      intros (i & Hi & _). by rewrite lookup_empty in Hi.
    + intros j1 j2 r1 r2 i1 i2 n1 n2 _ H1. by rewrite lookup_nil in H1.
  - intros r1 r2 i1 i2 n Hi1. by rewrite lookup_empty in Hi1.
Qed.

Lemma obj_ok_init q mem nxt pc ty dst src imm :
  obj_ok q mem nxt (Instruction.init pc ty dst src imm).
Proof. by split. Qed.

Lemma Inv_new (w : t) (r : ref) pc ty dst src imm :
  Inv w -> instrs w !! r = None ->
  Inv (new_instruction r (Instruction.init pc ty dst src imm) w).
Proof.
  intros (Hobj & Hlsq & (rl & Hrob) & Hinj) Hr.
  unfold Inv, inv, new_instruction. simpl. repeat apply conj.
  - intros r0 i0 H0. destruct (decide (r0 = r)) as [->|Hne].
    + rewrite lookup_insert_eq in H0. injection H0 as <-.
      apply obj_ok_init.
    + rewrite lookup_insert_ne in H0 by done. by eapply Hobj.
  - destruct Hlsq as [Hhd Hlen Hsz Htl Hent Hsrt]. split; try done.
    intros k Hk. destruct (Hent k Hk) as (e & He & H4 & Hav & r0 & i0 & Hi & Hl).
    exists e. repeat (split; [done|]). exists r0, i0. split; [|done].
    rewrite lookup_insert_ne; [done|]. intros ->. congruence.
  - exists rl. destruct Hrob as [Hring Hmem Hsrt]. split; [done| |].
    + intros r0. rewrite Hmem. destruct (decide (r0 = r)) as [->|Hne].
      * rewrite lookup_insert_eq, Hr. split; intros (i & Hi & Hs & _);
          [done|]. injection Hi as <-. by destruct Hs.
      * by rewrite lookup_insert_ne.
    + intros j1 j2 r1 r2 i1 i2 n1 n2 Hj H1 H2 Hi1 Hi2 Hn1 Hn2.
      assert (r1 <> r /\ r2 <> r) as [Hne1 Hne2].
      { split; intros ->; [rewrite lookup_insert_eq in Hi1
                          |rewrite lookup_insert_eq in Hi2]; by simplify_eq. }
      rewrite lookup_insert_ne in Hi1, Hi2 by done.
      by eapply (Hsrt j1 j2).
  - intros r1 r2 i1 i2 n Hi1 Hi2 Hn1 Hn2.
    assert (r1 <> r /\ r2 <> r) as [Hne1 Hne2].
    { split; intros ->; [rewrite lookup_insert_eq in Hi1
                        |rewrite lookup_insert_eq in Hi2]; by simplify_eq. }
    rewrite lookup_insert_ne in Hi1, Hi2 by done.
    by eapply Hinj.
Qed.

(** ** The issue stage *)

Ltac pinv_step :=
  match goal with
  | H : in_lsq _ _ = Ret _ _ |- _ =>
      apply in_lsq_inv in H as (? & H & ?)
  | H : in_predictor _ _ = Ret _ _ |- _ =>
      apply in_predictor_inv in H as (? & H)
  | H : in_rob _ _ = Ret _ _ |- _ =>
      apply in_rob_inv in H as (? & H & ?)
  | H : update _ _ _ = Ret _ _ |- _ =>
      apply update_inv in H as (? & ? & H)
  | H : deref _ _ = Ret _ _ |- _ =>
      apply deref_inv in H as (? & H)
  end.
Ltac pinv := repeat (first [pinv_step | minv_step]; subst).

Lemma with_predictor_id (w : t) : with_predictor (predictor w) w = w.
Proof. by destruct w. Qed.

Lemma maybe_in_predictor_inv {P : Prop} (d : {P} + {~ P})
    (m : M StoreSetPredictor.t unit) (w w' : t) (u : unit) :
  (if d then in_predictor m else ret tt) w = Ret u w' ->
  exists p', w' = with_predictor p' w.
Proof.
  destruct d; [apply in_predictor_inv|].
  intros [= <-]. exists (predictor w). by rewrite with_predictor_id.
Qed.

Lemma issue_instruction_Ret (r : ref) (w w' : t) (ok : bool) :
  issue_instruction r w = Ret ok w' ->
  (ReorderBuffer.size (rob w) >= ReorderBuffer.capacity (rob w)
   /\ ok = false /\ w' = w)
  \/ (ReorderBuffer.size (rob w) < ReorderBuffer.capacity (rob w)
      /\ exists i l,
          instrs w !! r = Some i
          /\ py_setitem (ReorderBuffer.entries (rob w))
               (ReorderBuffer.tail (rob w)) (Some r) = Some l
          /\ rob w' = ReorderBuffer.with_size (ReorderBuffer.size (rob w) + 1)
                        (ReorderBuffer.with_tail
                           ((ReorderBuffer.tail (rob w) + 1)
                              `mod` ReorderBuffer.capacity (rob w))
                           (ReorderBuffer.with_entries l (rob w)))
          /\ memory w' = memory w
          /\ next_seq_num w' = next_seq_num w + 1
          /\ let i1 := Instruction.with_seq_num (next_seq_num w) i in
             if bool_decide
                  (Instruction.instr_type i = InstructionType.LOAD
                   \/ Instruction.instr_type i = InstructionType.STORE)
             then
               (LoadStoreQueue.size (lsq w) >= LoadStoreQueue.capacity (lsq w)
                /\ ok = false
                /\ instrs w' = <[r := i1]> (instrs w)
                /\ lsq w' = lsq w)
               \/ (LoadStoreQueue.size (lsq w)
                     < LoadStoreQueue.capacity (lsq w)
                   /\ ok = true
                   /\ exists lq,
                       py_setitem (LoadStoreQueue.entries (lsq w))
                         (LoadStoreQueue.tail (lsq w))
                         (Some (LSQEntry.init (next_seq_num w)
                                  (Instruction.pc i)
                                  (if decide (Instruction.instr_type i
                                              = InstructionType.LOAD)
                                   then MemOpType.LOAD else MemOpType.STORE)
                                  4)) = Some lq
                       /\ instrs w'
                          = <[r := Instruction.with_issued
                                     (Instruction.with_lsq_idx
                                        (LoadStoreQueue.tail (lsq w)) i1)]>
                              (instrs w)
                       /\ lsq w'
                          = LoadStoreQueue.with_size
                              (LoadStoreQueue.size (lsq w) + 1)
                              (LoadStoreQueue.with_tail
                                 ((LoadStoreQueue.tail (lsq w) + 1)
                                    `mod` LoadStoreQueue.capacity (lsq w))
                                 (LoadStoreQueue.with_entries lq (lsq w))))
             else
               ok = true
               /\ instrs w' = <[r := Instruction.with_issued i1]> (instrs w)
               /\ lsq w' = lsq w).
Proof.
  intros H. unfold issue_instruction in H.
  rewrite (bind_step _ _ _ _ _ (in_rob_is_full w)) in H.
  case_bool_decide as Hfull; [left; by minv|]. right. split; [lia|].
  inv_bind H. apply in_rob_inv in E as (s' & E & ->).
  apply rob_allocate_Ret in E as [(? & _)|(_ & Hcap & -> & l & Hl & ->)];
    [simpl in *; lia|].
  simpl in *.
  inv_bind H. unfold gets in E. injection E as <- <-. simpl in *.
  inv_bind H. apply update_inv in E as (i & Hi & ->). simpl in *.
  inv_bind H. unfold modify in E. injection E as <- <-. simpl in *.
  inv_bind H. apply deref_inv in E as (Hi1 & ->). simpl in Hi1.
  exists i, l. split; [done|]. split; [done|].
  rewrite lookup_insert_eq in Hi1. injection Hi1 as <-.
  change (Instruction.instr_type (Instruction.with_seq_num _ i))
    with (Instruction.instr_type i) in H.
  change (Instruction.pc (Instruction.with_seq_num _ i))
    with (Instruction.pc i) in H.
  destruct (bool_decide (Instruction.instr_type i = InstructionType.LOAD
                         \/ Instruction.instr_type i = InstructionType.STORE)).
  - inv_bind H. apply in_lsq_inv in E as (q' & E & ->). simpl in E.
    apply lsq_allocate_Ret in E
      as [(Hqf & -> & ->)|(Hqf & Hqc & -> & lq & Hlq & ->)].
    + unfold ret in H. injection H as <- <-. simpl.
      repeat (split; [done|]). by left.
    + inv_bind H. apply update_inv in E as (i2 & Hi2 & ->). simpl in *.
      rewrite lookup_insert_eq in Hi2. injection Hi2 as <-.
      inv_bind H.
      apply maybe_in_predictor_inv in E as [p' ->].
      inv_bind H. apply update_inv in E as (i3 & Hi3 & ->). simpl in *.
      rewrite lookup_insert_eq in Hi3. injection Hi3 as <-.
      unfold ret in H. injection H as <- <-. simpl.
      repeat (split; [done|]). right. repeat (split; [done|]).
      exists lq. split; [done|]. by rewrite !insert_insert_eq.
  - inv_bind H. apply update_inv in E as (i2 & Hi2 & ->). simpl in *.
    rewrite lookup_insert_eq in Hi2. injection Hi2 as <-.
    unfold ret in H. injection H as <- <-. simpl.
    repeat (split; [done|]). by rewrite insert_insert_eq.
Qed.

Lemma py_setitem_nonneg {A} (l l' : list A) (idx : Z) (x : A) :
  0 <= idx -> py_setitem l idx x = Some l' ->
  l' = <[Z.to_nat idx := x]> l /\ idx < Z.of_nat (length l).
Proof.
  intros H0. unfold py_setitem, py_index.
  case_bool_decide; simpl; [intros [= <-]; split; [done|lia]|].
  rewrite bool_decide_eq_false_2 by lia. done.
Qed.

Lemma obj_fresh_facts q mem nxt (i : Instruction.t) :
  obj_ok q mem nxt i -> Instruction.seq_num i = None ->
  Instruction.lsq_idx i = None
  /\ Instruction.committed i = false
  /\ Instruction.issued i = false
  /\ Instruction.completed i = false
  /\ Instruction.executed i = false.
Proof.
  intros [H1 H2 H3 H4 H5 H6 H7 H8] Hs.
  destruct (H5 Hs) as [Hl Hc].
  assert (Hi : Instruction.issued i = false).
  { destruct (Instruction.issued i); [|done].
    destruct (H3 eq_refl) as [n Hn]. congruence. }
  assert (Hd : Instruction.completed i = false).
  { destruct (Instruction.completed i); [|done].
    specialize (H2 eq_refl). congruence. }
  by rewrite H1.
Qed.

Lemma rob_ok_issue (h : store) (b : ReorderBuffer.t) (rl : list ref)
    (r : ref) (i i' : Instruction.t) (n : Z) :
  rob_ok h b rl ->
  h !! r = Some i -> Instruction.seq_num i = None ->
  Instruction.seq_num i' = Some n -> Instruction.committed i' = false ->
  (forall r0 i0 n0, h !! r0 = Some i0 ->
                    Instruction.seq_num i0 = Some n0 -> n0 < n) ->
  ReorderBuffer.size b < ReorderBuffer.capacity b ->
  rob_ok (<[r := i']> h) (rob_push b r) (rl ++ [r]).
Proof.
  intros [Hring Hmem Hsrt] Hr Hs Hs' Hc' Hlt Hfull.
  assert (Hnin : r ∉ rl).
  { intros (i0 & Hi0 & [n0 Hn0] & _)%Hmem. congruence. }
  split.
  - by apply rob_repr_push.
  - intros r0. rewrite elem_of_app, list_elem_of_singleton.
    destruct (decide (r0 = r)) as [->|Hne].
    + rewrite lookup_insert_eq. split; [|by right].
      intros _. exists i'. rewrite Hs'. eauto.
    + rewrite lookup_insert_ne, <- Hmem by done. naive_solver.
  - intros j1 j2 r1 r2 i1 i2 n1 n2 Hj H1 H2 Hi1 Hi2 Hn1 Hn2.
    assert (r1 ∈ rl) as Hin1.
    { apply lookup_app_Some in H1 as [H1|[Hge H1]];
        [by eapply list_elem_of_lookup_2|].
      apply lookup_lt_Some in H2. rewrite length_app in H2. simpl in H2.
      apply list_lookup_singleton_Some in H1 as [? _]. lia. }
    assert (r1 <> r) as Hne1 by (by intros ->).
    rewrite lookup_insert_ne in Hi1 by done.
    apply lookup_app_Some in H1 as [H1|[Hge1 H1]];
      [|apply list_lookup_singleton_Some in H1 as [? _];
        apply lookup_lt_Some in H2; rewrite length_app in H2; simpl in H2;
        lia].
    apply lookup_app_Some in H2 as [H2|[Hge H2]].
    + assert (r2 <> r) as Hne2
        by (intros ->; by apply Hnin, (list_elem_of_lookup_2 _ j2)).
      rewrite lookup_insert_ne in Hi2 by done.
      by eapply (Hsrt j1 j2).
    + apply list_lookup_singleton_Some in H2 as [_ <-].
      rewrite lookup_insert_eq in Hi2. injection Hi2 as <-.
      assert (n2 = n) as -> by congruence. by eapply Hlt.
Qed.

Lemma seq_inj_issue (h : store) (r : ref) (i i' : Instruction.t) (n : Z) :
  seq_inj h ->
  h !! r = Some i ->
  Instruction.seq_num i' = Some n ->
  (forall r0 i0 n0, h !! r0 = Some i0 ->
                    Instruction.seq_num i0 = Some n0 -> n0 < n) ->
  seq_inj (<[r := i']> h).
Proof.
  intros Hinj Hr Hs' Hlt r1 r2 i1 i2 m Hi1 Hi2 Hn1 Hn2.
  destruct (decide (r1 = r)) as [->|Hne1], (decide (r2 = r)) as [->|Hne2];
    try done.
  - rewrite lookup_insert_eq in Hi1. rewrite lookup_insert_ne in Hi2 by done.
    injection Hi1 as <-. assert (m = n) as -> by congruence.
    specialize (Hlt _ _ _ Hi2 Hn2). lia.
  - rewrite lookup_insert_eq in Hi2. rewrite lookup_insert_ne in Hi1 by done.
    injection Hi2 as <-. assert (m = n) as -> by congruence.
    specialize (Hlt _ _ _ Hi1 Hn1). lia.
  - rewrite lookup_insert_ne in Hi1, Hi2 by done. by eapply Hinj.
Qed.

Lemma lsq_ok_heap_insert (h : store) (q : LoadStoreQueue.t) (r : ref)
    (i i' : Instruction.t) :
  h !! r = Some i -> Instruction.lsq_idx i = None ->
  lsq_ok h q -> lsq_ok (<[r := i']> h) q.
Proof.
  intros Hr Hl [Hhd Hlen Hsz Htl Hent Hsrt]. split; try done.
  intros k Hk. destruct (Hent k Hk) as (e & He & H4 & Hav & r0 & i0 & Hi & Hl0).
  exists e. repeat (split; [done|]). exists r0, i0. split; [|done].
  rewrite lookup_insert_ne; [done|]. intros ->. congruence.
Qed.

Lemma lsq_ok_issue (h : store) (q : LoadStoreQueue.t) (r : ref)
    (i i' : Instruction.t) (e : LSQEntry.t) :
  lsq_ok h q ->
  h !! r = Some i -> Instruction.lsq_idx i = None ->
  LoadStoreQueue.size q < LoadStoreQueue.capacity q ->
  (forall k e0, 0 <= k < LoadStoreQueue.size q ->
                LoadStoreQueue.entries q !! Z.to_nat k = Some (Some e0) ->
                LSQEntry.seq_num e0 < LSQEntry.seq_num e) ->
  Instruction.lsq_idx i' = Some (LoadStoreQueue.size q) ->
  LSQEntry.size e = 4 -> LSQEntry.address_valid e = false ->
  lsq_ok (<[r := i']> h)
    (LoadStoreQueue.with_size (LoadStoreQueue.size q + 1)
       (LoadStoreQueue.with_tail
          ((LoadStoreQueue.size q + 1) `mod` LoadStoreQueue.capacity q)
          (LoadStoreQueue.with_entries
             (<[Z.to_nat (LoadStoreQueue.size q) := Some e]>
                (LoadStoreQueue.entries q)) q))).
Proof.
  intros [Hhd Hlen Hsz Htl Hent Hsrt] Hr Hl Hcap Hlt Hl' H4 Hav.
  split; simpl.
  - done.
  - by rewrite length_insert.
  - lia.
  - clear Htl. case_bool_decide.
    + apply Z.mod_small. lia.
    + replace (LoadStoreQueue.size q + 1) with (LoadStoreQueue.capacity q)
        by lia.
      apply Z.mod_same. lia.
  - intros k Hk. destruct (decide (k = LoadStoreQueue.size q)) as [->|Hne].
    + exists e. rewrite list_lookup_insert_eq by lia.
      split; [done|]. split; [done|]. split; [by rewrite Hav|].
      exists r, i'. by rewrite lookup_insert_eq.
    + destruct (Hent k) as (e0 & He0 & H40 & Hav0 & r0 & i0 & Hi0 & Hl0);
        [lia|].
      exists e0. rewrite list_lookup_insert_ne by lia.
      repeat (split; [done|]). exists r0, i0. split; [|done].
      rewrite lookup_insert_ne; [done|]. intros ->. congruence.
  - intros k1 k2 e1 e2 Hk1 Hk2 H1 H2.
    rewrite list_lookup_insert_ne in H1 by lia.
    destruct (decide (k2 = LoadStoreQueue.size q)) as [->|Hne].
    + rewrite list_lookup_insert_eq in H2 by lia. injection H2 as <-.
      apply (Hlt k1); [lia|done].
    + rewrite list_lookup_insert_ne in H2 by lia.
      apply (Hsrt k1 k2); [lia|lia|done|done].
Qed.

Lemma lsq_entry_seq_bound (h : store) (q : LoadStoreQueue.t) (mem : gmap Z Z)
    (nxt : Z) (k : Z) (e : LSQEntry.t) :
  (forall r i, h !! r = Some i -> obj_ok q mem nxt i) ->
  lsq_ok h q ->
  0 <= k < LoadStoreQueue.size q ->
  LoadStoreQueue.entries q !! Z.to_nat k = Some (Some e) ->
  LSQEntry.seq_num e < nxt.
Proof.
  intros Hobj Hlsq Hk He.
  destruct (lsq_entry _ _ Hlsq k Hk) as (e0 & He0 & _ & _ & r & i & Hi & Hl).
  assert (e0 = e) as -> by congruence.
  destruct (ok_lsq _ _ _ _ (Hobj r i Hi) k Hl) as (_ & e1 & He1 & Hs & _).
  assert (e1 = e) as -> by congruence.
  by apply (ok_seq _ _ _ _ (Hobj r i Hi)).
Qed.

(** Objects other than the issued one keep what held of them. *)
Lemma obj_ok_issue_other (q q' : LoadStoreQueue.t) (mem : gmap Z Z)
    (nxt : Z) (i : Instruction.t) :
  obj_ok q mem nxt i ->
  LoadStoreQueue.size q <= LoadStoreQueue.size q' ->
  (forall k x, 0 <= k < LoadStoreQueue.size q ->
     LoadStoreQueue.entries q !! Z.to_nat k = Some x ->
     LoadStoreQueue.entries q' !! Z.to_nat k = Some x) ->
  (forall k, 0 <= k < LoadStoreQueue.size q ->
     take (Z.to_nat k) (LoadStoreQueue.entries q')
     = take (Z.to_nat k) (LoadStoreQueue.entries q)) ->
  obj_ok q' mem (nxt + 1) i.
Proof.
  intros Hok Hsz Hent Htake.
  eapply obj_ok_transfer; [done|lia|done|].
  intros k e Hk He.
  destruct (ok_lsq _ _ _ _ Hok k Hk) as (Hkr & _).
  split; [by apply Hent|].
  apply load_value_ok_ext. intros a _. by rewrite Htake.
Qed.

Lemma Inv_issue (w w' : t) (r : ref) (ok : bool) :
  Inv w -> first_issue w r ->
  issue_instruction r w = Ret ok w' -> Inv w'.
Proof.
  intros (Hobj & Hlsq & (rl & Hrob) & Hinj) Hfirst H.
  apply issue_instruction_Ret in H
    as [(_ & _ & ->)|(Hcap & i & l & Hi & Hl & Hrob' & Hmem & Hnxt & H)];
    [by split; [|split; [|split; [exists rl|]]]|].
  specialize (Hfirst i Hi).
  pose proof (Hobj r i Hi) as Hoi.
  destruct (obj_fresh_facts _ _ _ _ Hoi Hfirst)
    as (Hlq & Hcm & His & Hcp & Hex).
  assert (Hseq : forall r0 i0 n0, instrs w !! r0 = Some i0 ->
            Instruction.seq_num i0 = Some n0 -> n0 < next_seq_num w).
  { intros r0 i0 n0 H0 Hn0. by apply (ok_seq _ _ _ _ (Hobj r0 i0 H0)). }
  pose proof (rob_ring _ _ _ Hrob) as Hring.
  assert (Htl : 0 <= ReorderBuffer.tail (rob w)).
  { rewrite (rob_tail _ _ Hring); [|destruct Hring; lia].
    apply Z.mod_pos_bound. destruct Hring; lia. }
  apply py_setitem_nonneg in Hl as [-> _]; [|done].
  change (rob w' = rob_push (rob w) r) in Hrob'.
  unfold Inv, inv. rewrite Hrob', Hmem, Hnxt. simpl in H.
  case_bool_decide as Hty.
  - destruct H as [(Hqf & -> & Hh & Hq)
                  |(Hqf & -> & lq & Hlq' & Hh & Hq)]; rewrite Hh, Hq.
    + repeat apply conj.
      * intros r0 i0 H0. destruct (decide (r0 = r)) as [->|Hne].
        -- rewrite lookup_insert_eq in H0. injection H0 as <-.
           destruct Hoi as [H1 H2 H3 H4 H5 H6 H7 H8].
           split; simpl; try done; try congruence.
           intros n [= <-]. lia.
        -- rewrite lookup_insert_ne in H0 by done.
           eapply obj_ok_issue_other; [by eapply Hobj|lia|done|done].
      * by eapply lsq_ok_heap_insert.
      * exists (rl ++ [r]). by eapply rob_ok_issue.
      * by eapply seq_inj_issue.
    + pose proof (lsq_tail _ _ Hlsq) as Hqt.
      rewrite bool_decide_eq_true_2 in Hqt by done.
      rewrite Hqt in Hlq', Hh |- *.
      apply py_setitem_nonneg in Hlq' as [-> _];
        [|destruct Hlsq; lia].
      repeat apply conj.
      * intros r0 i0 H0. destruct (decide (r0 = r)) as [->|Hne].
        -- rewrite lookup_insert_eq in H0. injection H0 as <-.
           destruct Hoi as [H1 H2 H3 H4 H5 H6 H7 H8].
           split; simpl; try done; try congruence;
             try (by eexists); try (intros n [= <-]; lia).
           ++ intros k [= <-]. split; [destruct Hlsq; lia|].
              eexists. rewrite list_lookup_insert_eq
                by (destruct Hlsq; lia).
              split; [done|]. split; [done|].
              unfold entry_matches, store_entry_ok. simpl.
              rewrite Hcp.
              destruct Hty as [->| ->]; simpl; [|done].
              split; [done|]. intros; congruence.
        -- rewrite lookup_insert_ne in H0 by done.
           eapply obj_ok_issue_other; [by eapply Hobj|simpl; lia| |].
           ++ intros k x Hk Hx. simpl.
              by rewrite list_lookup_insert_ne by lia.
           ++ intros k Hk. simpl. by rewrite take_insert_ge by lia.
      * eapply lsq_ok_issue; try done.
        intros k e0 Hk He0. simpl.
        by eapply lsq_entry_seq_bound.
      * exists (rl ++ [r]). by eapply rob_ok_issue.
      * by eapply seq_inj_issue.
  - destruct H as (-> & Hh & Hq). rewrite Hh, Hq.
    repeat apply conj.
    + intros r0 i0 H0. destruct (decide (r0 = r)) as [->|Hne].
      * rewrite lookup_insert_eq in H0. injection H0 as <-.
        destruct Hoi as [H1 H2 H3 H4 H5 H6 H7 H8].
        split; simpl; try done; try congruence;
          try (by eexists); try (intros n [= <-]; lia).
      * rewrite lookup_insert_ne in H0 by done.
        eapply obj_ok_issue_other; [by eapply Hobj|lia|done|done].
    + by eapply lsq_ok_heap_insert.
    + exists (rl ++ [r]). by eapply rob_ok_issue.
    + by eapply seq_inj_issue.
Qed.

(** ** The execute stage *)

Lemma read_reg_inv (k : Z) (w w' : t) (v : Z) :
  read_reg k w = Ret v w' -> w' = w.
Proof. unfold read_reg. intros H. by minv. Qed.

Lemma base_reg_inv (l : list Z) (w w' : t) (v : Z) :
  match l with
  | r :: _ => read_reg r
  | [] => ret 0
  end w = Ret v w' -> w' = w.
Proof. destruct l; [by intros [= _ <-]|apply read_reg_inv]. Qed.

Lemma sum_regs_inv (l : list Z) (acc : Z) (w w' : t) (v : Z) :
  sum_regs l acc w = Ret v w' -> w' = w.
Proof.
  revert acc. induction l as [|k l IH]; intros acc; simpl.
  - by intros [= _ <-].
  - intros H. inv_bind H. apply read_reg_inv in E as ->. by eapply IH.
Qed.

Lemma write_dst_inv (d : option Z) (v : Z) (w w' : t) (u : unit) :
  write_dst d v w = Ret u w' -> exists regs, w' = with_registers regs w.
Proof.
  destruct d as [d|]; simpl.
  - unfold write_reg. intros H. minv. eauto.
  - intros [= <-]. exists (registers w). by destruct w.
Qed.

Lemma update_at_inv (q q' : LoadStoreQueue.t) (idx : Z)
    (f : LSQEntry.t -> LSQEntry.t) (e : LSQEntry.t) (u : unit) :
  0 <= idx < LoadStoreQueue.capacity q ->
  LoadStoreQueue.entries q !! Z.to_nat idx = Some (Some e) ->
  LoadStoreQueue.update_at idx f q = Ret u q' ->
  q' = LoadStoreQueue.with_entries
         (<[Z.to_nat idx := Some (f e)]> (LoadStoreQueue.entries q)) q.
Proof.
  intros Hidx He H. rewrite (update_at_Ret _ _ _ e) in H by done.
  by injection H.
Qed.

Lemma newest_conflict_insert_harmless (a : Z)
    (l : list (option LSQEntry.t)) (k0 k : nat) (x y : option LSQEntry.t) :
  l !! k0 = Some x ->
  (entry_effect a 4 x = None /\ entry_effect a 4 y = None)
  \/ entry_effect a 4 x = Some None ->
  newest_conflict a 4 (take k l) <> Some None ->
  newest_conflict a 4 (take k (<[k0 := y]> l))
  = newest_conflict a 4 (take k l).
Proof.
  intros Hx [[Hq1 Hq2]|Hb] Hnc.
  - by eapply newest_conflict_insert_quiet.
  - by eapply newest_conflict_insert_blocked.
Qed.

Lemma load_value_ok_insert (q : LoadStoreQueue.t) (mem : gmap Z Z) (k : Z)
    (e : LSQEntry.t) (i : Instruction.t) (k0 : nat)
    (x y : option LSQEntry.t) :
  LoadStoreQueue.entries q !! k0 = Some x ->
  (forall a, (entry_effect a 4 x = None /\ entry_effect a 4 y = None)
             \/ entry_effect a 4 x = Some None) ->
  load_value_ok q mem k e i ->
  load_value_ok
    (LoadStoreQueue.with_entries (<[k0 := y]> (LoadStoreQueue.entries q)) q)
    mem k e i.
Proof.
  intros Hx Hh (Hv & a & v & Ha & Hia & Hd & Hnc).
  split; [done|]. exists a, v. repeat (split; [done|]). simpl.
  rewrite (newest_conflict_insert_harmless a _ k0 _ x y); [done|done|done|].
  intros Heq. by rewrite Heq in Hnc.
Qed.

(** An object changes, its key and the LSQ do not. *)
Lemma inv_object (h : store) (b : ReorderBuffer.t) (q : LoadStoreQueue.t)
    (mem : gmap Z Z) (nxt : Z) (r : ref) (i i' : Instruction.t) :
  inv h b q mem nxt ->
  h !! r = Some i -> obj_key i' = obj_key i ->
  obj_ok q mem nxt i' ->
  inv (<[r := i']> h) b q mem nxt.
Proof.
  intros (Hobj & Hlsq & (rl & Hrob) & Hinj) Hi Hk Hok.
  pose proof (heap_key_insert h r i i' Hi Hk) as Hkeys.
  repeat apply conj.
  - intros r0 i0 H0. destruct (decide (r0 = r)) as [->|Hne].
    + rewrite lookup_insert_eq in H0. by injection H0 as <-.
    + rewrite lookup_insert_ne in H0 by done. by eapply Hobj.
  - by eapply lsq_ok_heap.
  - exists rl. by eapply rob_ok_heap.
  - by eapply seq_inj_heap.
Qed.

(** An object and its own LSQ entry change: the entry keeps its sequence
    number and size, and either it is a load's entry before and after, or
    it was the entry of a store whose address was unknown. *)
Lemma inv_own_slot (h : store) (b : ReorderBuffer.t) (q : LoadStoreQueue.t)
    (mem : gmap Z Z) (nxt : Z) (r : ref) (i i' : Instruction.t) (k : Z)
    (e e' : LSQEntry.t) :
  let q' := LoadStoreQueue.with_entries
              (<[Z.to_nat k := Some e']> (LoadStoreQueue.entries q)) q in
  inv h b q mem nxt ->
  h !! r = Some i -> obj_key i' = obj_key i ->
  Instruction.lsq_idx i = Some k ->
  LoadStoreQueue.entries q !! Z.to_nat k = Some (Some e) ->
  LSQEntry.seq_num e' = LSQEntry.seq_num e ->
  LSQEntry.size e' = LSQEntry.size e ->
  (LSQEntry.address_valid e' = true -> is_Some (LSQEntry.address e')) ->
  (forall a, (entry_effect a 4 (Some e) = None
              /\ entry_effect a 4 (Some e') = None)
             \/ entry_effect a 4 (Some e) = Some None) ->
  obj_ok q' mem nxt i' ->
  inv (<[r := i']> h) b q' mem nxt.
Proof.
  intros q' (Hobj & Hlsq & (rl & Hrob) & Hinj) Hi Hkey Hk He Hseq Hsz Hav
    Hh Hok.
  pose proof (heap_key_insert h r i i' Hi Hkey) as Hkeys.
  destruct (ok_lsq _ _ _ _ (Hobj r i Hi) k Hk) as (Hkr & e0 & He0 & Hsi & _).
  assert (e0 = e) as -> by congruence.
  repeat apply conj.
  - intros r0 i0 H0. destruct (decide (r0 = r)) as [->|Hne].
    { rewrite lookup_insert_eq in H0. by injection H0 as <-. }
    rewrite lookup_insert_ne in H0 by done.
    eapply obj_ok_transfer; [by eapply Hobj|lia|done|].
    intros k1 e1 Hk1 He1.
    destruct (ok_lsq _ _ _ _ (Hobj r0 i0 H0) k1 Hk1)
      as (Hkr1 & e2 & He2 & Hs1 & _).
    assert (e2 = e1) as -> by congruence.
    assert (k1 <> k) as Hne1.
    { intros ->. assert (e1 = e) as -> by congruence.
      apply Hne. by eapply (Hinj r0 r i0 i). }
    split.
    + simpl. rewrite list_lookup_insert_ne by lia. done.
    + by apply (load_value_ok_insert _ _ _ _ _ _ (Some e)).
  - apply (lsq_ok_heap h (<[r := i']> h)) in Hlsq; [|done].
    destruct Hlsq as [Hhd Hlen Hsize Htl Hent Hsrt]. split; simpl; try done.
    + by rewrite length_insert.
    + intros k1 Hk1. destruct (Hent k1 Hk1) as (e1 & He1 & H4 & Hav1 & Hown).
      destruct (decide (k1 = k)) as [->|Hne].
      * assert (e1 = e) as -> by congruence.
        exists e'. rewrite list_lookup_insert_eq
          by (by eapply lookup_lt_Some).
        split; [done|]. split; [congruence|]. done.
      * exists e1. rewrite list_lookup_insert_ne by lia. done.
    + intros k1 k2 e1 e2 Hk12 Hk2 H1 H2.
      assert (exists e1', LoadStoreQueue.entries q !! Z.to_nat k1
                          = Some (Some e1')
                          /\ LSQEntry.seq_num e1' = LSQEntry.seq_num e1)
        as (e1' & H1' & <-).
      { destruct (decide (k1 = k)) as [->|Hne].
        - rewrite list_lookup_insert_eq in H1
            by (by eapply lookup_lt_Some).
          injection H1 as <-. eauto.
        - rewrite list_lookup_insert_ne in H1 by lia. eauto. }
      assert (exists e2', LoadStoreQueue.entries q !! Z.to_nat k2
                          = Some (Some e2')
                          /\ LSQEntry.seq_num e2' = LSQEntry.seq_num e2)
        as (e2' & H2' & <-).
      { destruct (decide (k2 = k)) as [->|Hne].
        - rewrite list_lookup_insert_eq in H2
            by (by eapply lookup_lt_Some).
          injection H2 as <-. eauto.
        - rewrite list_lookup_insert_ne in H2 by lia. eauto. }
      by eapply (Hsrt k1 k2).
  - exists rl. by eapply rob_ok_heap.
  - by eapply seq_inj_heap.
Qed.

(** States in normal form: the fields of a state built by the [with_*]
    functions from a constructor. *)
Ltac wnorm_in H :=
  cbn [instrs rob lsq predictor registers memory next_seq_num cycle pc
       instructions_committed loads_executed stores_executed
       speculation_violations forwarding_events
       with_instrs with_rob with_lsq with_predictor with_registers
       with_memory with_next_seq_num with_cycle with_pc
       with_instructions_committed with_loads_executed with_stores_executed
       with_speculation_violations with_forwarding_events] in H.

(** Take apart [update r f] on a state whose object at [r] is known. *)
Ltac upd H :=
  let E := fresh "E" in
  let i := fresh "i" in
  let Hi := fresh "Hi" in
  apply bind_Ret in H as (? & ? & E & H);
  apply update_inv in E as (i & Hi & ->);
  wnorm_in Hi; wnorm_in H; rewrite ?lookup_insert_eq in Hi;
  first [injection Hi as <- | simplify_eq];
  rewrite ?insert_insert_eq in H.

(** Take apart [modify f]. *)
Ltac mdf H :=
  let E := fresh "E" in
  apply bind_Ret in H as (? & ? & E & H);
  unfold modify in E; injection E as <- <-; wnorm_in H.

Lemma Inv_execute_alu (w w' : t) (r : ref) (i : Instruction.t) (ok : bool) :
  Inv w -> instrs w !! r = Some i ->
  Instruction.issued i = true -> Instruction.executed i = false ->
  Instruction.instr_type i = InstructionType.ALU ->
  (s <- sum_regs (Instruction.src_regs i) 0;;
   write_dst (Instruction.dst_reg i) (s + Instruction.immediate i);;
   update r Instruction.with_executed;;
   update r Instruction.with_completed;;
   ret true) w = Ret ok w' ->
  Inv w'.
Proof.
  intros HI Hi His Hex Hty H.
  inv_bind H. apply sum_regs_inv in E as ->.
  inv_bind H. apply write_dst_inv in E as [regs ->].
  upd H. upd H.
  injection H as <- <-.
  unfold Inv. simpl.
  apply (inv_object _ _ _ _ _ r i); [done|done|done|].
  destruct HI as (Hobj & _).
  destruct (Hobj r i Hi) as [H1 H2 H3 H4 H5 H6 H7 H8].
  split; simpl; try done.
  intros k Hk. destruct (H8 k Hk) as (_ & e & _ & _ & Hm).
  unfold entry_matches in Hm. by rewrite Hty in Hm.
Qed.

Lemma with_entries_insert_twice (q : LoadStoreQueue.t) (k : nat)
    (x y : option LSQEntry.t) :
  let q1 := LoadStoreQueue.with_entries
              (<[k := x]> (LoadStoreQueue.entries q)) q in
  LoadStoreQueue.with_entries (<[k := y]> (LoadStoreQueue.entries q1)) q1
  = LoadStoreQueue.with_entries (<[k := y]> (LoadStoreQueue.entries q)) q.
Proof.
  unfold LoadStoreQueue.with_entries. simpl.
  by rewrite list_insert_insert_eq.
Qed.

Lemma load_entry_quiet (a : Z) (e : LSQEntry.t) :
  LSQEntry.op_type e = MemOpType.LOAD -> entry_effect a 4 (Some e) = None.
Proof.
  intros Hop. unfold entry_effect. rewrite Hop.
  by rewrite bool_decide_eq_false_2 by (by intros [|]).
Qed.

Lemma Inv_execute_load (w w' : t) (r : ref) (i : Instruction.t) (ok : bool) :
  Inv w -> instrs w !! r = Some i ->
  Instruction.issued i = true -> Instruction.executed i = false ->
  Instruction.instr_type i = InstructionType.LOAD ->
  _execute_load r w = Ret ok w' ->
  Inv w'.
Proof.
  intros HI Hi His Hex Hty H.
  destruct w as [h b q p regs mem nxt cyc pc0 n1 n2 n3 n4 n5].
  unfold Inv in HI. simpl in HI, Hi.
  pose proof HI as (Hobj & Hlsq & _ & _).
  pose proof (Hobj r i Hi) as Hoi.
  destruct (ok_mem_issued _ _ _ _ Hoi His (or_introl Hty)) as [k Hk].
  destruct (ok_lsq _ _ _ _ Hoi k Hk) as (Hkr & e & He & Hse & Hm).
  unfold entry_matches in Hm. rewrite Hty in Hm. destruct Hm as [Hop _].
  destruct (lsq_entry _ _ Hlsq k Hkr) as (e0 & He0 & H4 & _).
  assert (e0 = e) as -> by congruence. clear He0.
  assert (Hcp : Instruction.completed i = false)
    by (by rewrite <- (ok_executed _ _ _ _ Hoi)).
  assert (Hcap : 0 <= k < LoadStoreQueue.capacity q)
    by (destruct Hlsq; lia).
  pose proof (lookup_lt_Some _ _ _ He) as Hlen.
  unfold _execute_load in H.
  inv_bind H. apply deref_inv in E as (Hi' & ->). simpl in Hi'.
  assert (a = i) as -> by congruence. clear Hi'.
  inv_bind H. apply base_reg_inv in E as ->.
  set (addr := a + Instruction.immediate i) in *.
  upd H. rewrite Hk in H.
  inv_bind H. apply in_lsq_inv in E as (q1 & E & ->). wnorm_in E.
  apply (update_at_inv _ _ _ _ e) in E; [|done|done]. subst q1. wnorm_in H.
  set (e1 := LSQEntry.with_address addr e) in *.
  set (q1 := LoadStoreQueue.with_entries _ q) in *.
  inv_bind H. destruct a1 as [[has_dep fwd_idx] fwd_data].
  unfold check_dependency in E.
  apply in_lsq_inv in E as (q' & E & ->). wnorm_in E. wnorm_in H.
  apply (check_dependency_value _ _ _ addr e1)
    in E; [|by destruct Hlsq|done|by apply list_lookup_insert_eq|done|done].
  simpl in E. rewrite take_insert_ge, H4 in E by lia.
  destruct E as (-> & Hdep & Hfwd).
  destruct Hoi as [H1 H2 H3 H5 H6 H7 H8 H9].
  assert (Hquiet : forall e', LSQEntry.op_type e' = MemOpType.LOAD ->
            forall a', (entry_effect a' 4 (Some e) = None
                        /\ entry_effect a' 4 (Some e') = None)
                       \/ entry_effect a' 4 (Some e) = Some None).
  { intros e' He' a'. left. by rewrite !load_entry_quiet. }
  destruct fwd_data as [fwd|].
  - upd H. inv_bind H. apply write_dst_inv in E as [regs' ->]. wnorm_in H.
    mdf H. upd H. upd H. mdf H. injection H as <- <-.
    unfold Inv. wnorm_in Hi.
    apply (inv_own_slot _ _ _ _ _ r i _ k e e1 HI Hi);
      [done|done|done|done|done|by eexists|by apply Hquiet|].
    split; [done|done|done|done|done|done|done|].
    intros k' Hk'. assert (k' = k) as -> by (simpl in Hk'; congruence).
    split; [done|]. exists e1.
    split; [by apply list_lookup_insert_eq|]. split; [done|].
    unfold entry_matches. simpl. rewrite Hty. split; [done|].
    intros _ _. split; [done|]. exists addr, fwd.
    repeat (split; [done|]). simpl.
    rewrite take_insert_ge by lia.
    destruct (newest_conflict _ _ _) as [[d|]|]; simpl in Hfwd; congruence.
  - inv_bind H. destruct a1 as [can_spec wait].
    apply in_predictor_inv in E as (p' & ->). wnorm_in H.
    destruct (negb can_spec || has_dep) eqn:Hgo.
    + injection H as <- <-. unfold Inv.
      apply (inv_own_slot _ _ _ _ _ r i _ k e e1 HI Hi);
        [done|done|done|done|done|by eexists|by apply Hquiet|].
      split; [done|done|done|done|done|done|done|].
      intros k' Hk'. assert (k' = k) as -> by (simpl in Hk'; congruence).
      split; [done|]. exists e1.
      split; [by apply list_lookup_insert_eq|]. split; [done|].
      unfold entry_matches. simpl. rewrite Hty. split; [done|].
      intros; congruence.
    + apply orb_false_iff in Hgo as [_ ->].
      symmetry in Hdep. apply bool_decide_eq_false in Hdep.
      assert (Hnc : newest_conflict addr 4
                      (take (Z.to_nat k) (LoadStoreQueue.entries q))
                    = None).
      { destruct (newest_conflict _ _ _); [by destruct Hdep|done]. }
      inv_bind H. injection E as <- <-. wnorm_in H.
      upd H. inv_bind H. apply write_dst_inv in E as [regs' ->]. wnorm_in H.
      upd H. upd H. upd H.
      inv_bind H. inv_bind E.
      apply in_lsq_inv in E0 as (q2 & E0 & ->). wnorm_in E0. wnorm_in E.
      apply (update_at_inv _ _ _ _ e1) in E0;
        [|done|by apply list_lookup_insert_eq]. subst q2.
      apply in_lsq_inv in E as (q3 & E & ->). wnorm_in E. wnorm_in H.
      apply (update_at_inv _ _ _ _ (LSQEntry.with_speculative e1))
        in E; [|done|apply list_lookup_insert_eq; simpl;
                     by rewrite length_insert].
      subst q3. unfold q1 in H. rewrite !with_entries_insert_twice in H.
      mdf H. injection H as <- <-.
      unfold Inv.
      apply (inv_own_slot _ _ _ _ _ r i _ k e
               (LSQEntry.with_completed (LSQEntry.with_speculative e1))
               HI Hi);
        [done|done|done|done|done|by eexists|by apply Hquiet|].
      split; [done|done|done|done|done|done|done|].
      intros k' Hk'. assert (k' = k) as -> by (simpl in Hk'; congruence).
      split; [done|]. eexists.
      split; [by apply list_lookup_insert_eq|]. split; [done|].
      unfold entry_matches. simpl. rewrite Hty. split; [done|].
      intros _ _. split; [done|]. eexists addr, _.
      repeat (split; [done|]). simpl.
      rewrite take_insert_ge by lia. by rewrite Hnc.
Qed.

Lemma Inv_execute_store (w w' : t) (r : ref) (i : Instruction.t) (ok : bool) :
  Inv w -> instrs w !! r = Some i ->
  Instruction.issued i = true -> Instruction.executed i = false ->
  Instruction.instr_type i = InstructionType.STORE ->
  _execute_store r w = Ret ok w' ->
  Inv w'.
Proof.
  intros HI Hi His Hex Hty H.
  destruct w as [h b q p regs mem nxt cyc pc0 n1 n2 n3 n4 n5].
  unfold Inv in HI. simpl in HI, Hi.
  pose proof HI as (Hobj & Hlsq & _ & _).
  pose proof (Hobj r i Hi) as Hoi.
  destruct (ok_mem_issued _ _ _ _ Hoi His (or_intror Hty)) as [k Hk].
  destruct (ok_lsq _ _ _ _ Hoi k Hk) as (Hkr & e & He & Hse & Hm).
  assert (Hcp : Instruction.completed i = false)
    by (by rewrite <- (ok_executed _ _ _ _ Hoi)).
  unfold entry_matches, store_entry_ok in Hm. rewrite Hty, Hcp in Hm.
  destruct Hm as [Hop Hav].
  destruct (lsq_entry _ _ Hlsq k Hkr) as (e0 & He0 & H4 & _).
  assert (e0 = e) as -> by congruence. clear He0.
  assert (Hcap : 0 <= k < LoadStoreQueue.capacity q)
    by (destruct Hlsq; lia).
  pose proof (lookup_lt_Some _ _ _ He) as Hlen.
  unfold _execute_store in H.
  inv_bind H. apply deref_inv in E as (Hi' & ->). simpl in Hi'.
  assert (a = i) as -> by congruence. clear Hi'.
  inv_bind H. apply base_reg_inv in E as ->.
  set (addr := a + Instruction.immediate i) in *.
  upd H.
  apply bind_Ret in H as (d & ? & E & H). apply read_reg_inv in E as ->.
  upd H. rewrite Hk in H.
  inv_bind H. inv_bind E. inv_bind E.
  apply in_lsq_inv in E0 as (q1 & E0 & ->). wnorm_in E0. wnorm_in E1.
  apply (update_at_inv _ _ _ _ e) in E0; [|done|done]. subst q1.
  apply in_lsq_inv in E1 as (q2 & E1 & ->). wnorm_in E1. wnorm_in E.
  apply (update_at_inv _ _ _ _ (LSQEntry.with_address addr e)) in E1;
    [|done|by apply list_lookup_insert_eq]. subst q2.
  rewrite with_entries_insert_twice in E.
  cbn [LSQEntry.op_type LSQEntry.with_address] in E.
  destruct (decide (LSQEntry.op_type e = MemOpType.STORE)) as [_|]; [|done].
  apply in_lsq_inv in E as (q3 & E & ->). wnorm_in E. wnorm_in H.
  apply (update_at_inv _ _ _ _
           (LSQEntry.with_data d (LSQEntry.with_address addr e))) in E;
    [|done|by apply list_lookup_insert_eq]. subst q3.
  rewrite with_entries_insert_twice in H.
  upd H. upd H. mdf H. injection H as <- <-.
  unfold Inv.
  apply (inv_own_slot _ _ _ _ _ r i _ k e
           (LSQEntry.with_completed
              (LSQEntry.with_data d (LSQEntry.with_address addr e)))
           HI Hi); [done|done|done|done|done|by eexists| |].
  - intros a'. right. unfold entry_effect. rewrite Hop, Hav.
    by rewrite bool_decide_eq_true_2 by (by left).
  - destruct Hoi as [H1 H2 H3 H5 H6 H7 H8 H9].
    split; [done|done|done|done|done|done|done|].
    intros k' Hk'. assert (k' = k) as -> by (simpl in Hk'; congruence).
    split; [done|]. eexists.
    split; [by apply list_lookup_insert_eq|]. split; [done|].
    unfold entry_matches, store_entry_ok. simpl. rewrite Hty.
    split; [done|]. split; [done|]. split; [done|]. by exists addr, d.
Qed.

Lemma Inv_execute (w w' : t) (r : ref) (ok : bool) :
  Inv w -> execute_instruction r w = Ret ok w' -> Inv w'.
Proof.
  intros HI H. unfold execute_instruction in H.
  inv_bind H. apply deref_inv in E as (Hi & ->). rename a into i.
  destruct (negb (Instruction.issued i) || Instruction.executed i) eqn:Hg;
    [by injection H as <- <-|].
  apply orb_false_iff in Hg as [His%negb_false_iff Hex].
  destruct (Instruction.instr_type i) eqn:Hty.
  - by eapply Inv_execute_load.
  - by eapply Inv_execute_store.
  - by eapply Inv_execute_alu.
  - by injection H as <- <-.
  - by injection H as <- <-.
Qed.

(** ** The commit stage *)

Lemma overlaps_same (a : Z) : overlaps a 4 a 4 = true.
Proof.
  unfold overlaps. by rewrite !bool_decide_eq_false_2 by lia.
Qed.

(** A resolved store at [a] that means nothing to a load at [a'] is a store
    to another address. *)
Lemma store_quiet_elsewhere (a a' : Z) (e : LSQEntry.t) :
  LSQEntry.op_type e = MemOpType.STORE ->
  LSQEntry.address_valid e = true ->
  LSQEntry.address e = Some a ->
  LSQEntry.size e = 4 ->
  entry_effect a' 4 (Some e) = None -> a <> a'.
Proof.
  intros Hop Hav Ha H4 He ->. unfold entry_effect in He.
  rewrite Hop, Hav, Ha, H4, overlaps_same in He.
  rewrite bool_decide_eq_true_2 in He by (by left).
  by destruct (_ && _).
Qed.

Lemma inv_commit_head (h : store) (b : ReorderBuffer.t)
    (q : LoadStoreQueue.t) (mem mem' : gmap Z Z) (nxt : Z) (r : ref)
    (i : Instruction.t) :
  inv h b q mem nxt ->
  py_getitem (ReorderBuffer.entries b) (ReorderBuffer.head b)
    = Some (Some r) ->
  h !! r = Some i ->
  Instruction.completed i = true ->
  ReorderBuffer.size b <> 0 ->
  mem' = mem
  \/ (Instruction.instr_type i = InstructionType.STORE
      /\ exists a d, Instruction.address i = Some a
                     /\ Instruction.data i = Some d
                     /\ mem' = <[a := d]> mem) ->
  inv (<[r := Instruction.with_committed i]> h) (rob_pop b) q mem' nxt.
Proof.
  intros (Hobj & Hlsq & (rl & Hrob) & Hinj) Hget Hi Hcp Hsz Hmem.
  pose proof (rob_ring _ _ _ Hrob) as Hring.
  destruct rl as [|r0 rl].
  { destruct Hring as [_ _ Hs _ _ _]. simpl in Hs. lia. }
  destruct (rob_repr_head _ _ _ Hring) as [Hhd Hrange].
  rewrite (py_getitem_lookup _ _ _ (proj1 Hrange) Hhd) in Hget.
  assert (r0 = r) as -> by congruence. clear Hget.
  pose proof (Hobj r i Hi) as Hoi.
  destruct (ok_issued _ _ _ _ Hoi (ok_completed _ _ _ _ Hoi Hcp))
    as [n Hn].
  assert (Hnin : r ∉ rl).
  { intros (j & Hj)%list_elem_of_lookup_1.
    pose proof (rob_sorted _ _ _ Hrob 0%nat (S j) r r i i n n) as Hlt.
    specialize (Hlt ltac:(lia) eq_refl Hj Hi Hi Hn Hn). lia. }
  repeat apply conj.
  - intros r1 i1 H1. destruct (decide (r1 = r)) as [->|Hne].
    + rewrite lookup_insert_eq in H1. injection H1 as <-.
      destruct Hoi as [H1 H2 H3 H4 H5 H6 H7 H8].
      split; simpl; try done.
      * intros Hs. rewrite Hs in Hn. done.
      * intros k Hk. destruct (H8 k Hk) as (Hkr & e & He & Hse & Hm).
        split; [done|]. exists e. repeat (split; [done|]).
        unfold entry_matches in *. simpl.
        destruct (Instruction.instr_type i); try done.
        split; [apply Hm|]. intros; congruence.
    + rewrite lookup_insert_ne in H1 by done.
      pose proof (Hobj r1 i1 H1) as [G1 G2 G3 G4 G5 G6 G7 G8].
      split; try done.
      intros k Hk. destruct (G8 k Hk) as (Hkr & e & He & Hse & Hm).
      split; [done|]. exists e. repeat (split; [done|]).
      unfold entry_matches in *.
      destruct (Instruction.instr_type i1); try done.
      destruct Hm as [Hop Hv]. split; [done|]. intros Hc1 Hu1.
      specialize (Hv Hc1 Hu1).
      destruct Hmem as [->|(Hty & a & d & Ha & Hd & ->)]; [done|].
      eapply load_value_ok_ext; [|done].
      intros a1 Ha1. split; [done|]. intros Hnc.
      apply lookup_insert_ne.
      (* the committing store is older than the load *)
      destruct (ok_mem_issued _ _ _ _ Hoi (ok_completed _ _ _ _ Hoi Hcp)
                  (or_intror Hty)) as [kS HkS].
      destruct (ok_lsq _ _ _ _ Hoi kS HkS) as (HkSr & eS & HeS & HsS & HmS).
      unfold entry_matches, store_entry_ok in HmS.
      rewrite Hty, Hcp in HmS.
      destruct HmS as (HopS & HavS & _ & aS & dS & HaS & HaS' & _).
      assert (aS = a) as -> by congruence.
      destruct (lsq_entry _ _ Hlsq kS HkSr) as (eS' & HeS' & H4S & _).
      assert (eS' = eS) as -> by congruence.
      destruct (ok_issued _ _ _ _ (Hobj r1 i1 H1) (G2 Hc1)) as [n1 Hn1].
      assert (r1 ∈ r :: rl) as Hin.
      { apply (rob_members _ _ _ Hrob). exists i1. by rewrite Hn1. }
      apply elem_of_cons in Hin as [?|Hin]; [done|].
      apply list_elem_of_lookup_1 in Hin as (j & Hj).
      pose proof (rob_sorted _ _ _ Hrob 0%nat (S j) r r1 i i1 n n1) as Hlt.
      specialize (Hlt ltac:(lia) eq_refl Hj Hi H1 Hn Hn1).
      assert (LSQEntry.seq_num eS < LSQEntry.seq_num e) as Hseq
        by (rewrite HsS in Hn; rewrite Hse in Hn1; simplify_eq; lia).
      assert (kS < k) as HkSk.
      { destruct (decide (kS < k)) as [|Hge]; [done|].
        destruct (decide (kS = k)) as [->|Hne'].
        - assert (eS = e) as -> by congruence. lia.
        - pose proof (lsq_sorted _ _ Hlsq k kS e eS) as Hs.
          specialize (Hs ltac:(lia) ltac:(lia) He HeS). lia. }
      eapply (store_quiet_elsewhere a a1 eS); try done.
      eapply (newest_conflict_None_inv a1 4 _ (Z.to_nat kS)); [done|].
      rewrite lookup_take_lt by lia. done.
  - destruct Hlsq as [Hhd' Hlen Hsize Htl Hent Hsrt]. split; try done.
    intros k Hk.
    destruct (Hent k Hk) as (e & He & H4 & Hav & r1 & i1 & H1 & Hl1).
    exists e. repeat (split; [done|]).
    destruct (decide (r1 = r)) as [->|Hne].
    + exists r, (Instruction.with_committed i).
      rewrite lookup_insert_eq. split; [done|]. simpl. congruence.
    + exists r1, i1. by rewrite lookup_insert_ne.
  - exists rl. destruct Hrob as [_ Hmemb Hsrt]. split.
    + by eapply rob_repr_pop.
    + intros r1. destruct (decide (r1 = r)) as [->|Hne].
      * rewrite lookup_insert_eq. split; [done|].
        by intros (i1 & [= <-] & _ & Hc).
      * rewrite lookup_insert_ne by done. rewrite <- Hmemb.
        rewrite elem_of_cons. naive_solver.
    + intros j1 j2 r1 r2 i1 i2 n1 n2 Hj H1 H2 Hi1 Hi2 Hn1 Hn2.
      assert (r1 <> r) by (intros ->; by apply Hnin,
                             (list_elem_of_lookup_2 _ j1)).
      assert (r2 <> r) by (intros ->; by apply Hnin,
                             (list_elem_of_lookup_2 _ j2)).
      rewrite lookup_insert_ne in Hi1, Hi2 by done.
      eapply (Hsrt (S j1) (S j2)); try done. lia.
  - intros r1 r2 i1 i2 m Hi1 Hi2 Hn1 Hn2.
    assert (exists i1', h !! r1 = Some i1'
                        /\ Instruction.seq_num i1' = Some m)
      as (i1' & Hi1' & Hn1').
    { destruct (decide (r1 = r)) as [->|Hne].
      - rewrite lookup_insert_eq in Hi1. injection Hi1 as <-. eauto.
      - rewrite lookup_insert_ne in Hi1 by done. eauto. }
    assert (exists i2', h !! r2 = Some i2'
                        /\ Instruction.seq_num i2' = Some m)
      as (i2' & Hi2' & Hn2').
    { destruct (decide (r2 = r)) as [->|Hne].
      - rewrite lookup_insert_eq in Hi2. injection Hi2 as <-. eauto.
      - rewrite lookup_insert_ne in Hi2 by done. eauto. }
    by eapply (Hinj r1 r2).
Qed.

(** The data a completed load holds is what [check_dependency] would
    forward to it, when it forwards anything: validation finds no
    violation. *)
Lemma validate_load_false (w1 w2 : t) (q : LoadStoreQueue.t)
    (mem : gmap Z Z) (h : store) (r : ref) (i i' : Instruction.t) (k : Z)
    (e : LSQEntry.t) (v : bool) :
  lsq_ok h q -> lsq w1 = q ->
  instrs w1 !! r = Some i' ->
  Instruction.lsq_idx i' = Some k ->
  Instruction.data i' = Instruction.data i ->
  0 <= k < LoadStoreQueue.size q ->
  LoadStoreQueue.entries q !! Z.to_nat k = Some (Some e) ->
  load_value_ok q mem k e i ->
  _validate_load r w1 = Ret v w2 ->
  v = false.
Proof.
  intros Hlsq Hq Hi' Hk Hdata Hkr He (Hav & a & d & Ha & Hia & Hd & Hnc) H.
  destruct (lsq_entry _ _ Hlsq k Hkr) as (e0 & He0 & H4 & _).
  assert (e0 = e) as -> by congruence. clear He0.
  unfold _validate_load in H.
  inv_bind H. apply deref_inv in E as (Hi1 & ->).
  assert (a0 = i') as -> by congruence. rewrite Hk in H.
  inv_bind H. destruct a0 as [[has_dep fwd_idx] fwd_data].
  apply in_lsq_inv in E as (q' & E & ->). rewrite Hq in E.
  apply (check_dependency_value _ _ _ a e) in E;
    [|by destruct Hlsq|destruct Hlsq; lia|done|done|done].
  simpl in E. rewrite H4 in E. destruct E as (_ & _ & ->).
  destruct (newest_conflict _ _ _) as [[fwd|]|]; simpl in H;
    [|by injection H|by injection H].
  rewrite bool_decide_eq_false_2 in H; [by injection H|].
  intros Hne. apply Hne. congruence.
Qed.

Lemma rob_head_ref (h : store) (b : ReorderBuffer.t) (rl : list ref)
    (r : ref) :
  rob_ok h b rl ->
  py_getitem (ReorderBuffer.entries b) (ReorderBuffer.head b)
    = Some (Some r) ->
  ReorderBuffer.size b <> 0 ->
  exists rl', rl = r :: rl'.
Proof.
  intros Hrob Hget Hsz. pose proof (rob_ring _ _ _ Hrob) as Hring.
  destruct rl as [|r0 rl];
    [destruct Hring as [_ _ Hs _ _ _]; simpl in Hs; lia|].
  destruct (rob_repr_head _ _ _ Hring) as [Hh0 Hr0].
  rewrite (py_getitem_lookup _ _ _ (proj1 Hr0) Hh0) in Hget.
  injection Hget as ->. eauto.
Qed.

(** What the commit stage does in a state of a single-issue run: nothing,
    or it retires the ROB head [r], a completed object; validation of a
    speculative load never reports a violation. *)
Lemma commit_instruction_Inv set_pop (w w' : t) (c : option ref) :
  Inv w -> commit_instruction set_pop w = Ret c w' ->
  Inv w'
  /\ lsq w' = lsq w
  /\ match c with
     | None => instrs w' = instrs w
     | Some r =>
         exists i,
           instrs w !! r = Some i
           /\ Instruction.completed i = true
           /\ py_getitem (ReorderBuffer.entries (rob w))
                 (ReorderBuffer.head (rob w)) = Some (Some r)
           /\ ReorderBuffer.size (rob w) <> 0
           /\ instrs w' = <[r := Instruction.with_committed i]> (instrs w)
           /\ (Instruction.instr_type i = InstructionType.LOAD ->
               memory w' = memory w)
     end.
Proof.
  intros HI H.
  apply commit_instruction_Ret in H as (c0 & s1 & Hc & H).
  apply rob_commit_head_Ret in Hc.
  destruct c0 as [r|]; simpl in Hc.
  2: { destruct H as [-> ->]. subst s1. by destruct w. }
  destruct Hc as (i & l & Hget & Hi & Hcp & Hl & Hcap & Hsz & ->).
  simpl in H. destruct H as (i' & Hi' & H).
  rewrite lookup_insert_eq in Hi'. injection Hi' as <-.
  pose proof HI as (Hobj & Hlsq & (rl & Hrob) & _).
  pose proof (rob_ring _ _ _ Hrob) as Hring.
  assert (Hhd : 0 <= ReorderBuffer.head (rob w)).
  { destruct Hring as [_ Hh Hs Hb _ _]. lia. }
  apply py_setitem_nonneg in Hl as [-> _]; [|done].
  change (ReorderBuffer.with_size _ _) with (rob_pop (rob w)) in H.
  assert (Hsame : inv (<[r := Instruction.with_committed i]> (instrs w))
                      (rob_pop (rob w)) (lsq w) (memory w) (next_seq_num w))
    by (eapply inv_commit_head; eauto).
  change (Instruction.instr_type (Instruction.with_committed i))
    with (Instruction.instr_type i) in H.
  change (Instruction.speculative (Instruction.with_committed i))
    with (Instruction.speculative i) in H.
  destruct (bool_decide (Instruction.instr_type i = InstructionType.LOAD)
            && Instruction.speculative i) eqn:Hspec.
  - destruct H as (v & Hv & H).
    apply andb_true_iff in Hspec as [Hty%bool_decide_eq_true _].
    pose proof (Hobj r i Hi) as Hoi.
    destruct (ok_mem_issued _ _ _ _ Hoi (ok_completed _ _ _ _ Hoi Hcp)
                (or_introl Hty)) as [k Hk].
    destruct (ok_lsq _ _ _ _ Hoi k Hk) as (Hkr & e & He & Hse & Hm).
    unfold entry_matches in Hm. rewrite Hty in Hm.
    destruct Hm as [_ Hlv].
    assert (Hun : Instruction.committed i = false).
    { destruct (rob_head_ref _ _ _ _ Hrob Hget Hsz) as [rl' ->].
      assert (r ∈ r :: rl') as (i0 & Hi0 & _ & Hc0)%(rob_members _ _ _ Hrob)
        by (by left).
      congruence. }
    apply (validate_load_false _ _ (lsq w) (memory w) (instrs w) r i
             (Instruction.with_committed i) k e) in Hv;
      [|done|done|apply lookup_insert_eq|done|done|done|done|by apply Hlv].
    subst v. destruct H as (-> & p' & _ & ->).
    split; [exact Hsame|]. split; [done|]. by exists i.
  - destruct (decide (Instruction.instr_type i = InstructionType.STORE))
      as [Hty|Hty].
    + destruct H as (-> & a & d & p' & Ha & Hd & _ & ->).
      split; [|split; [done|]].
      * unfold Inv. simpl. eapply inv_commit_head; eauto 10.
      * exists i. repeat (split; [done|]). intros; congruence.
    + destruct H as (-> & ->).
      split; [exact Hsame|]. split; [done|]. by exists i.
Qed.

Lemma Inv_commit set_pop (w w' : t) (c : option ref) :
  Inv w -> commit_instruction set_pop w = Ret c w' -> Inv w'.
Proof. intros HI H. by destruct (commit_instruction_Inv _ _ _ _ HI H). Qed.

Lemma first_issue_commit set_pop (w w' : t) (c : option ref) (r : ref) :
  Inv w -> commit_instruction set_pop w = Ret c w' ->
  first_issue w r -> first_issue w' r.
Proof.
  intros HI H Hf. destruct (commit_instruction_Inv _ _ _ _ HI H)
    as (_ & _ & Hc).
  unfold first_issue in *. destruct c as [r0|]; [|by rewrite Hc].
  destruct Hc as (i0 & Hi0 & _ & _ & _ & -> & _).
  intros i. destruct (decide (r = r0)) as [->|Hne].
  - rewrite lookup_insert_eq. intros [= <-]. simpl. by apply Hf.
  - rewrite lookup_insert_ne by done. apply Hf.
Qed.

Lemma Inv_cycle_step set_pop (w w' : t) (stream stream' : list ref) :
  Inv w ->
  (forall r, head stream = Some r -> first_issue w r) ->
  cycle_step set_pop stream w = Ret stream' w' -> Inv w'.
Proof.
  intros HI Hmay H. unfold cycle_step in H.
  mdf H. inv_bind H.
  assert (HI1 : Inv (with_cycle (cycle w + 1) w)) by (by destruct w).
  pose proof (Inv_commit _ _ _ _ HI1 E) as HI2.
  destruct stream as [|r rest]; [by injection H as <- <-|].
  assert (Hf : first_issue s r).
  { eapply first_issue_commit; [exact HI1|exact E|].
    specialize (Hmay r eq_refl). by destruct w. }
  rewrite (bind_step _ _ _ _ _ (in_rob_is_full s)) in H.
  destruct (negb _); [|by injection H as <- <-].
  inv_bind H.
  assert (Inv s0) by (by eapply Inv_issue).
  destruct a0; by injection H as <- <-.
Qed.

(** ** Single-issue runs keep the invariant *)

Lemma reachable_Inv set_pop (w : t) :
  reachable set_pop first_issue w -> Inv w.
Proof.
  induction 1 as [| | | | | |].
  - apply Inv_init.
  - by apply Inv_new.
  - by destruct w.
  - by eapply Inv_issue.
  - by eapply Inv_execute.
  - by eapply Inv_commit.
  - by eapply Inv_cycle_step.
Qed.

Lemma unissued_first_issue (w : t) (r : ref) :
  unissued w r = true -> first_issue w r.
Proof.
  unfold unissued, first_issue. intros H i Hi. rewrite Hi in H.
  by apply bool_decide_eq_true in H.
Qed.

Lemma run_call_reachable_once set_pop (c : call) (w w' : t) :
  reachable set_pop first_issue w ->
  issues_fresh c w = true ->
  run_call set_pop c w = Some w' ->
  reachable set_pop first_issue w'.
Proof.
  intros Hw Hf H. destruct c; simpl in H, Hf.
  - case_decide; [|done]. injection H as <-. by apply reach_new.
  - destruct (issue_instruction r w) eqn:E; [|done]. injection H as <-.
    eapply reach_issue; [done| |done]. by apply unissued_first_issue.
  - destruct (execute_instruction r w) eqn:E; [|done]. injection H as <-.
    by eapply reach_execute.
  - destruct (commit_instruction set_pop w) eqn:E; [|done]. injection H as <-.
    by eapply reach_commit.
  - destruct (cycle_step set_pop stream w) eqn:E; [|done]. injection H as <-.
    eapply reach_cycle_step; [done| |done].
    intros r Hr. destruct stream as [|r0 rest]; [done|].
    injection Hr as ->. by apply unissued_first_issue.
Qed.

Lemma run_calls_reachable_once set_pop (cs : list call) (w w' : t) :
  reachable set_pop first_issue w ->
  issues_once set_pop cs w = true ->
  run_calls set_pop cs w = Some w' ->
  reachable set_pop first_issue w'.
Proof.
  revert w. induction cs as [|c cs IH]; intros w Hw Hf H; simpl in H, Hf.
  - by injection H as <-.
  - apply andb_true_iff in Hf as [Hf1 Hf2].
    destruct (run_call set_pop c w) as [w1|] eqn:E; [|done]. simpl in H.
    eapply IH; [|done|done]. by eapply run_call_reachable_once.
Qed.

(** ** The architectural value *)

Lemma older_scan (l : list (option LSQEntry.t)) (cap : Z) (n : nat) :
  (n <= length l)%nat -> Z.of_nat n <= cap ->
  omap (fun j => mjoin (l !! Z.to_nat ((0 + j) `mod` cap)))
       (seqZ 0 (Z.of_nat n))
  = omap id (take n l).
Proof.
  induction n as [|n IH]; intros Hn Hcap; [done|].
  rewrite seqZ_S, omap_app, IH by lia.
  destruct (lookup_lt_is_Some_2 l n) as [x Hx]; [lia|].
  rewrite (take_S_r _ _ _ Hx), omap_app. f_equal. simpl.
  rewrite Z.mod_small by lia.
  replace (Z.to_nat (0 + (0 + Z.of_nat n))) with n by lia.
  by rewrite Hx.
Qed.

Lemma older_entries_take (q : LoadStoreQueue.t) (k : Z) :
  LoadStoreQueue.head q = 0 ->
  0 <= k < LoadStoreQueue.capacity q ->
  (Z.to_nat k <= length (LoadStoreQueue.entries q))%nat ->
  older_entries q k = omap id (take (Z.to_nat k) (LoadStoreQueue.entries q)).
Proof.
  intros Hhd Hk Hlen. unfold older_entries.
  rewrite Hhd, Z.sub_0_r, Z.mod_small by lia.
  rewrite <- (Z2Nat.id k) at 1 by lia.
  apply older_scan; lia.
Qed.

Lemma entry_effect_resolved (a : Z) (e : LSQEntry.t) :
  resolved e ->
  entry_effect a 4 (Some e)
  = if overlapping_store a 4 e then
      Some (if LSQEntry.data_valid e
               && bool_decide (LSQEntry.address e = Some a)
               && bool_decide (LSQEntry.size e >= 4)
            then LSQEntry.data e else None)
    else None.
Proof.
  intros Hres. unfold entry_effect, overlapping_store, resolved in *.
  case_bool_decide as Hop; [|done]. rewrite (Hres Hop). simpl.
  destruct (LSQEntry.address e) as [a0|]; [|done].
  destruct (overlaps _ _ _ _); [|done].
  by destruct (_ && _).
Qed.

Lemma newest_conflict_resolved (a : Z) (l : list (option LSQEntry.t)) :
  (forall e, Some e ∈ l -> resolved e) ->
  newest_conflict a 4 l
  = match last (filter (fun e => overlapping_store a 4 e) (omap id l)) with
    | Some st =>
        Some (if LSQEntry.data_valid st
                 && bool_decide (LSQEntry.address st = Some a)
                 && bool_decide (LSQEntry.size st >= 4)
              then LSQEntry.data st else None)
    | None => None
    end.
Proof.
  induction l as [|o l IH] using rev_ind; intros Hres; [done|].
  rewrite newest_conflict_snoc, omap_app, filter_app, last_app.
  rewrite IH by (intros e He; apply Hres, elem_of_app; by left).
  destruct o as [e|]; [|done].
  rewrite entry_effect_resolved
    by (apply Hres, elem_of_app; right; by apply list_elem_of_singleton).
  change (omap id [Some e]) with [e].
  rewrite filter_cons, filter_nil.
  destruct (overlapping_store a 4 e) eqn:Hov.
  - rewrite decide_True by (by apply Is_true_true). done.
  - rewrite decide_False by (by apply Is_true_false). done.
Qed.

(** When the ROB head [r] retires, every older LSQ entry belongs to a
    committed object: the stores among them have their address. *)
Lemma older_entries_resolved (h : store) (b : ReorderBuffer.t)
    (q : LoadStoreQueue.t) (mem : gmap Z Z) (nxt : Z) (rl : list ref)
    (r : ref) (i : Instruction.t) (k : Z) (e e0 : LSQEntry.t) :
  inv h b q mem nxt ->
  rob_ok h b (r :: rl) ->
  h !! r = Some i ->
  Instruction.lsq_idx i = Some k ->
  LoadStoreQueue.entries q !! Z.to_nat k = Some (Some e) ->
  Instruction.seq_num i = Some (LSQEntry.seq_num e) ->
  0 <= k < LoadStoreQueue.size q ->
  Some e0 ∈ take (Z.to_nat k) (LoadStoreQueue.entries q) ->
  resolved e0.
Proof.
  intros (Hobj & Hlsq & _ & Hinj) Hrob Hi Hk He Hse Hkr Hin.
  apply list_elem_of_lookup_1 in Hin as (j & Hj).
  apply lookup_take_Some in Hj as [Hj Hjk].
  assert (Hjr : 0 <= Z.of_nat j < LoadStoreQueue.size q) by lia.
  destruct (lsq_entry _ _ Hlsq _ Hjr) as (e1 & He1 & _ & _ & r1 & i1 & Hi1 & Hl1).
  rewrite Nat2Z.id in He1. assert (e1 = e0) as -> by congruence.
  destruct (ok_lsq _ _ _ _ (Hobj r1 i1 Hi1) _ Hl1)
    as (_ & e2 & He2 & Hs1 & Hm).
  rewrite Nat2Z.id in He2. assert (e2 = e0) as -> by congruence.
  pose proof (lsq_sorted _ _ Hlsq (Z.of_nat j) k e0 e) as Hlt.
  rewrite Nat2Z.id in Hlt.
  specialize (Hlt ltac:(lia) ltac:(lia) Hj He).
  unfold entry_matches in Hm. intros Hop.
  destruct (Instruction.instr_type i1) eqn:Hty1; try done.
  { destruct Hm as [Hm _]. rewrite Hm in Hop. by destruct Hop. }
  destruct Hm as [_ Hm]. unfold store_entry_ok in Hm.
  destruct (Instruction.completed i1) eqn:Hc1; [by destruct Hm|].
  exfalso.
  assert (Hu1 : Instruction.committed i1 = false).
  { destruct (Instruction.committed i1) eqn:Hcm; [|done].
    rewrite (ok_committed _ _ _ _ (Hobj r1 i1 Hi1) Hcm) in Hc1. done. }
  assert (r1 ∈ r :: rl) as Hin1.
  { apply (rob_members _ _ _ Hrob). exists i1. by rewrite Hs1. }
  apply elem_of_cons in Hin1 as [->|Hin1].
  - assert (i1 = i) as -> by congruence.
    rewrite Hse in Hs1. injection Hs1 as Hs1. lia.
  - apply list_elem_of_lookup_1 in Hin1 as (j1 & Hj1).
    pose proof (rob_sorted _ _ _ Hrob 0%nat (S j1) r r1 i i1
                  (LSQEntry.seq_num e) (LSQEntry.seq_num e0)) as Hlt'.
    specialize (Hlt' ltac:(lia) eq_refl Hj1 Hi Hi1 Hse Hs1). lia.
Qed.


End committed_loads.
